(** * The HTTP build step ([buildbot/steps/http_oldstyle.py])

    A shallow embedding of the module: the process-wide session
    ([getSession], [setSession], [closeSession]), the step constructor
    ([__init__] and the six verb subclasses), and the two coroutines [run]
    and [log_response], written in a state monad over the objects the
    module reads and writes (module globals, the reactor's triggers, the
    step's logs and the requests handed to the session).

    Python [str] values are [string]s (their UTF-8 bytes; byte-wise
    lexicographic order is code-point order).  A [dict] is the list of its
    items in insertion order, with distinct keys. *)

From Stdlib Require Import ZArith String Ascii DecimalString.
From stdpp Require Import base numbers option list strings sorting gmap.

Local Open Scope string_scope.
Local Open Scope list_scope.

(** ** Python values and builtins *)

(** Items of a [dict], in insertion (= iteration) order. *)
Definition dict : Type := list (string * string).

(** The invariant of a [dict]: no key occurs twice. *)
Definition dict_wf (d : dict) : Prop := NoDup d.*1.

(** Pass-through values the step never inspects (json, headers, ...). *)
Definition Opaque : Type := string.

Definition nl : string := String (ascii_of_nat 10) "".
Definition tab : string := String (ascii_of_nat 9) "".

(** ["%d" % z] and [str(z)] for an integer. *)
Definition format_d (z : Z) : string := NilZero.string_of_int (Z.to_int z).

(** [s * n] on strings. *)
Fixpoint str_mul (s : string) (n : nat) : string :=
  match n with
  | O => ""
  | S n' => s +:+ str_mul s n'
  end.

(** [sorted(items, key=lambda x: x[0])]: a stable sort on the first
    component, compared as Python compares [str]. *)
Fixpoint insert_by_key (x : string * string) (l : list (string * string))
  : list (string * string) :=
  match l with
  | [] => [x]
  | y :: l' =>
      if String.leb x.1 y.1 then x :: y :: l' else y :: insert_by_key x l'
  end.

Definition sorted (items : list (string * string)) : list (string * string) :=
  foldr insert_by_key [] items.

(** [requests.codes.ok] *)
Definition requests_codes_ok : Z := 200.

(** ** Data model *)

(** The [data] option: a mapping or a raw string. *)
Inductive Data :=
  | DataDict (d : dict)
  | DataStr (s : string).

(** What ends up under ['params'] in [requestkwargs]: the mapping as
    given, or the list of pairs [sorted] returns. *)
Inductive Params :=
  | ParamsDict (d : dict)
  | ParamsItems (l : list (string * string)).

(** Truth value of [self.params] and of [data]. *)
Definition params_truthy (p : option dict) : bool :=
  match p with
  | Some (_ :: _) => true
  | _ => false
  end.

Definition data_truthy (d : option Data) : bool :=
  match d with
  | Some (DataDict (_ :: _)) => true
  | Some (DataStr (String _ _)) => true
  | _ => false
  end.

(** The names in [requestsParams] other than [params] and [data]. *)
Definition passthroughParams : list string :=
  ["json"; "headers"; "cookies"; "files"; "auth"; "timeout";
   "allow_redirects"; "proxies"; "hooks"; "stream"; "verify"; "cert"].

Definition requestsParams : list string :=
  ["params"; "data"] ++ passthroughParams.

(** Keyword arguments of the constructor.  A keyword that is absent and a
    keyword given as [None] are the same to [kwargs.pop(param, None)]. *)
Record Kwargs := mkKwargs {
  kw_params : option dict;
  kw_data : option Data;
  kw_others : gmap string Opaque;
}.

(** The keyword arguments of [session.request]. *)
Record RequestKwargs := mkRequestKwargs {
  rk_method : string;
  rk_url : string;
  rk_params : option Params;
  rk_data : option Data;
  rk_others : gmap string Opaque;
}.

Definition set_rk_params (p : option Params) (rk : RequestKwargs) : RequestKwargs :=
  mkRequestKwargs (rk_method rk) (rk_url rk) p (rk_data rk) (rk_others rk).

(** A response; [resp_history] are the redirect responses that led to it,
    oldest first. *)
#[warnings="-register-all"]
Inductive Response := mkResponse {
  resp_url : string;
  resp_status_code : Z;
  resp_request_headers : dict;
  resp_headers : dict;
  resp_text : string;
  resp_history : list Response;
}.

(** Exceptions [session.request] can raise: the one [run] catches, and
    the others. *)
Inductive Exception :=
  | ConnectionError (detail : string)
  | OtherException (detail : string).

Inductive Results := SUCCESS | FAILURE.

(** How a call of [run] ends. *)
Inductive Outcome :=
  | Returned (res : Results)
  | Raised (e : Exception).

(** Identity of a session object. *)
Definition Session : Type := nat.

(** [descriptionDone] is a [str] on the class and a list after [run]. *)
Inductive Description :=
  | DescStr (s : string)
  | DescList (l : list string).

Record HTTPStep := mkHTTPStep {
  method : string;
  url : string;
  params : option dict;
  data : option Data;
  others : gmap string Opaque;
  buildstep_kwargs : gmap string Opaque;
  descriptionDone : Description;
  session : option Session;
}.

Definition set_session (s : option Session) (self : HTTPStep) : HTTPStep :=
  mkHTTPStep (method self) (url self) (params self) (data self) (others self)
    (buildstep_kwargs self) (descriptionDone self) s.

Definition set_descriptionDone (d : Description) (self : HTTPStep) : HTTPStep :=
  mkHTTPStep (method self) (url self) (params self) (data self) (others self)
    (buildstep_kwargs self) d (session self).

(** ** The logging sink *)

Inductive Stream := header | stdout | stderr.

Record Log := mkLog {
  log_name : string;
  log_lines : list (Stream * string);
  log_finished : bool;
}.

Definition LogHandle : Type := nat.

(** ** The world the module acts on *)

Inductive Callback := call_closeSession.

Record World := mkWorld {
  _session : option Session;          (* the module global *)
  next_object : nat;                  (* next fresh object identity *)
  closed : list Session;              (* sessions whose [close] was called *)
  triggers : list (string * string * Callback);   (* the reactor's *)
  logs : list Log;                    (* logs of the step, as opened *)
  sent : list (Session * RequestKwargs);   (* calls of [session.request] *)
}.

Definition St (A : Type) : Type := World → A * World.

#[global] Instance St_ret : MRet St := λ A a w, (a, w).
#[global] Instance St_bind : MBind St :=
  λ A B f m w, let '(a, w') := m w in f a w'.

(** [for x in l: body(x)] *)
Fixpoint for_each {A} (l : list A) (body : A → St unit) : St unit :=
  match l with
  | [] => mret tt
  | x :: l' => body x;; for_each l' body
  end.

Definition set_logs (ls : list Log) (w : World) : World :=
  mkWorld (_session w) (next_object w) (closed w) (triggers w) ls (sent w).

Definition set_finished (l : Log) : Log :=
  mkLog (log_name l) (log_lines l) true.

(** Modelled from the spec: the logging sink of the host ([BuildStep.addLog]
    and the log object are not in this module).  [addLog(name)] opens a new
    log and returns it; text is appended, never overwritten; header, normal
    output and error output are distinct channels of the same log. *)
Definition addLog (name : string) : St LogHandle :=
  λ w, (length (logs w), set_logs (logs w ++ [mkLog name [] false]) w).

Definition append_lines (ls : list (Stream * string)) (l : Log) : Log :=
  mkLog (log_name l) (log_lines l ++ ls) (log_finished l).

Definition add_line (st : Stream) (log : LogHandle) (txt : string) : St unit :=
  λ w, (tt, set_logs (alter (append_lines [(st, txt)]) log (logs w)) w).

Definition addHeader : LogHandle → string → St unit := add_line header.
Definition addStdout : LogHandle → string → St unit := add_line stdout.
Definition addStderr : LogHandle → string → St unit := add_line stderr.

Definition finish (log : LogHandle) : St unit :=
  λ w, (tt, set_logs (alter set_finished log (logs w)) w).

(** ** The shared session *)

(** [txrequests.Session()]: a new object. *)
Definition new_Session : St Session :=
  λ w, (next_object w,
        mkWorld (_session w) (S (next_object w)) (closed w) (triggers w)
          (logs w) (sent w)).

Definition store_session (s : option Session) : St unit :=
  λ w, (tt, mkWorld s (next_object w) (closed w) (triggers w) (logs w) (sent w)).

Definition addSystemEventTrigger (phase event : string) (f : Callback) : St unit :=
  λ w, (tt, mkWorld (_session w) (next_object w) (closed w)
              (triggers w ++ [(phase, event, f)]) (logs w) (sent w)).

Definition Session_close (s : Session) : St unit :=
  λ w, (tt, mkWorld (_session w) (next_object w) (closed w ++ [s]) (triggers w)
              (logs w) (sent w)).

Definition getSession : St Session :=
  λ w, match _session w with
       | None =>
           (s ← new_Session;
            store_session (Some s);;
            addSystemEventTrigger "before" "shutdown" call_closeSession;;
            mret s) w
       | Some s => (s, w)
       end.

Definition setSession (s : option Session) : St unit := store_session s.

Definition closeSession : St unit :=
  λ w, match _session w with
       | Some s => (Session_close s;; store_session None) w
       | None => (tt, w)
       end.

(** ** The step *)

Inductive TxRequests := txrequests_module.

Inductive ConfigErrors := mkConfigErrors (errors : list string).

(** Modelled from the spec: [config.error] (module [buildbot.config] is not
    part of this file).  An unknown method or a missing HTTP library is a
    fatal configuration error raised at step-definition time. *)
Definition config_error {A} (msg : string) : ConfigErrors + A :=
  inl (mkConfigErrors [msg]).

(** ['\t{}: {}\n'.format(k, v)] *)
Definition kv_line (kv : string * string) : string :=
  tab +:+ kv.1 +:+ ": " +:+ kv.2 +:+ nl.

(** The keywords [__init__] pops as request options, and the ones it leaves
    for the base class. *)
Definition popped_kwargs (kwargs : Kwargs) : gmap string Opaque :=
  filter (λ kv, kv.1 ∈ passthroughParams) (kw_others kwargs).

Definition remaining_kwargs (kwargs : Kwargs) : gmap string Opaque :=
  filter (λ kv, kv.1 ∉ requestsParams) (kw_others kwargs).

(** The methods [__init__] accepts. *)
Definition known_methods : list string :=
  ["POST"; "GET"; "PUT"; "DELETE"; "HEAD"; "OPTIONS"].

Section HTTPStep.

(** The constructor of the base class, applied to the keywords that are
    left once the [requestsParams] have been popped: it accepts them or
    raises a configuration error. *)
Variable BuildStep__init__ : gmap string Opaque → option ConfigErrors.

(** [session.request] applied to [requestkwargs]: the response, or the
    exception raised. *)
Variable request : Session → RequestKwargs → Exception + Response.

(** [HTTPStep.__init__] on [url], [method] and [kwargs], with the module
    global [txrequests] ([None] when the import failed).  The deprecation
    warnings it may emit are not modelled. *)
Definition __init__ (txrequests : option TxRequests) (url method : string)
    (kwargs : Kwargs) : ConfigErrors + HTTPStep :=
  match txrequests with
  | None =>
      config_error ("Need to install txrequest to use this step:" +:+ nl
                    +:+ nl +:+ " pip install txrequests")
  | Some _ =>
      if bool_decide (method ∉ known_methods)
      then config_error ("Wrong method given: '" +:+ method +:+ "' is not known")
      else
        (* [kwargs.pop(param, None)] for each of [requestsParams] *)
        let popped := popped_kwargs kwargs in
        let kwargs' := remaining_kwargs kwargs in
        match BuildStep__init__ kwargs' with
        | Some e => inl e
        | None =>
            inr (mkHTTPStep method url (kw_params kwargs) (kw_data kwargs)
                   popped kwargs' (DescStr "Requested") None)
        end
  end.

Definition POST txrequests url kwargs := __init__ txrequests url "POST" kwargs.
Definition GET txrequests url kwargs := __init__ txrequests url "GET" kwargs.
Definition PUT txrequests url kwargs := __init__ txrequests url "PUT" kwargs.
Definition DELETE txrequests url kwargs := __init__ txrequests url "DELETE" kwargs.
Definition HEAD txrequests url kwargs := __init__ txrequests url "HEAD" kwargs.
Definition OPTIONS txrequests url kwargs := __init__ txrequests url "OPTIONS" kwargs.

Definition session_request (s : Session) (rk : RequestKwargs)
  : St (Exception + Response) :=
  λ w, (request s rk,
        mkWorld (_session w) (next_object w) (closed w) (triggers w) (logs w)
          (sent w ++ [(s, rk)])).

Definition log_response (log : LogHandle) (response : Response) : St unit :=
  addHeader log ("Request Header:" +:+ nl);;
  for_each (resp_request_headers response)
    (λ kv, addHeader log (kv_line kv));;
  addStdout log ("URL: " +:+ resp_url response +:+ nl);;
  (if bool_decide (resp_status_code response = requests_codes_ok)
   then addStdout log ("Status: " +:+ format_d (resp_status_code response) +:+ nl)
   else addStderr log ("Status: " +:+ format_d (resp_status_code response) +:+ nl));;
  addHeader log ("Response Header:" +:+ nl);;
  for_each (resp_headers response)
    (λ kv, addHeader log (kv_line kv));;
  addStdout log (" ------ Content ------" +:+ nl +:+ resp_text response);;
  content_log ← addLog "content";
  addStdout content_log (resp_text response).

Definition run (self : HTTPStep) : St (Outcome * HTTPStep) :=
  s ← getSession;
  let self := set_session (Some s) self in
  (* every attribute of [requestsParams] that is not [None] is copied *)
  let requestkwargs :=
    mkRequestKwargs (method self) (url self) (ParamsDict <$> params self)
      (data self) (others self) in
  log ← addLog "log";
  addHeader log ("Performing " +:+ method self +:+ " request to "
                 +:+ url self +:+ nl);;
  requestkwargs ←
    (if params_truthy (params self) then
       addHeader log ("Parameters:" +:+ nl);;
       (* [requestkwargs.get("params", {})] is [self.params], or [{}] *)
       let params := default [] (params self) in
       (* iterating the empty mapping, were it reached, yields nothing *)
       let '(params, requestkwargs) :=
         match params with
         | _ :: _ =>
             let params := sorted params in
             (params, set_rk_params (Some (ParamsItems params)) requestkwargs)
         | [] => ([], requestkwargs)
         end in
       for_each params (λ kv, addHeader log (kv_line kv));;
       mret requestkwargs
     else mret requestkwargs);
  let data := rk_data requestkwargs in
  (if data_truthy data then
     addHeader log ("Data:" +:+ nl);;
     match data with
     | Some (DataDict d) => for_each d (λ kv, addHeader log (kv_line kv))
     | Some (DataStr s) => addHeader log (tab +:+ s +:+ nl)
     | None => mret tt
     end
   else mret tt);;
  r ← session_request s requestkwargs;
  match r with
  | inl (ConnectionError e) =>
      addStderr log
        ("An exception occurred while performing the request: " +:+ e);;
      mret (Returned FAILURE, self)
  | inl e => mret (Raised e, self)
  | inr r =>
      (match resp_history r with
       | _ :: _ =>
           addStdout log (nl +:+ "Redirected "
                          +:+ format_d (Z.of_nat (length (resp_history r)))
                          +:+ " times:" +:+ nl +:+ nl);;
           for_each (resp_history r)
             (λ rr, log_response log rr;;
                    addStdout log (str_mul "=" 60 +:+ nl))
       | [] => mret tt
       end);;
      log_response log r;;
      finish log;;
      let self :=
        set_descriptionDone
          (DescList ["Status code: " +:+ format_d (resp_status_code r)]) self in
      if bool_decide (resp_status_code r < 400)%Z
      then mret (Returned SUCCESS, self)
      else mret (Returned FAILURE, self)
  end.

End HTTPStep.


(** ** What the coroutines write, as lists *)

(** The ["Status: ..."] entry of [log_response]. *)
Definition status_entry (r : Response) : Stream * string :=
  (if bool_decide (resp_status_code r = requests_codes_ok) then stdout else stderr,
   "Status: " +:+ format_d (resp_status_code r) +:+ nl).

(** The entries [log_response] appends to the transcript for one response. *)
Definition response_lines (r : Response) : list (Stream * string) :=
  [(header, "Request Header:" +:+ nl)]
  ++ map (λ kv, (header, kv_line kv)) (resp_request_headers r)
  ++ [(stdout, "URL: " +:+ resp_url r +:+ nl); status_entry r;
      (header, "Response Header:" +:+ nl)]
  ++ map (λ kv, (header, kv_line kv)) (resp_headers r)
  ++ [(stdout, " ------ Content ------" +:+ nl +:+ resp_text r)].

(** The log [log_response] opens for the body of one response. *)
Definition content_log_of (r : Response) : Log :=
  mkLog "content" [(stdout, resp_text r)] false.

Definition rule_entry : Stream * string := (stdout, str_mul "=" 60 +:+ nl).

Definition redirected_entry (n : nat) : Stream * string :=
  (stdout, nl +:+ "Redirected " +:+ format_d (Z.of_nat n) +:+ " times:" +:+ nl +:+ nl).

(** The ["Parameters:"] section for a list of pairs. *)
Definition parameters_section (items : list (string * string))
  : list (Stream * string) :=
  (header, "Parameters:" +:+ nl) :: map (λ kv, (header, kv_line kv)) items.

(** The ["Data:"] section. *)
Definition data_section (d : Data) : list (Stream * string) :=
  (header, "Data:" +:+ nl) ::
  match d with
  | DataDict m => map (λ kv, (header, kv_line kv)) m
  | DataStr s => [(header, tab +:+ s +:+ nl)]
  end.

(** The entries [run] writes before it sends the request. *)
Definition request_summary (self : HTTPStep) : list (Stream * string) :=
  [(header, "Performing " +:+ method self +:+ " request to " +:+ url self +:+ nl)]
  ++ (if params_truthy (params self)
      then parameters_section (sorted (default [] (params self))) else [])
  ++ (if data_truthy (data self)
      then from_option data_section [] (data self) else []).

(** The keyword arguments [run] hands to [session.request]. *)
Definition requestkwargs_of (self : HTTPStep) : RequestKwargs :=
  mkRequestKwargs (method self) (url self)
    (if params_truthy (params self)
     then Some (ParamsItems (sorted (default [] (params self))))
     else ParamsDict <$> params self)
    (data self) (others self).

(** The entries [run] writes for the redirect chain of [r]. *)
Definition redirect_lines (r : Response) : list (Stream * string) :=
  match resp_history r with
  | [] => []
  | h => redirected_entry (length h)
         :: concat (map (λ rr, response_lines rr ++ [rule_entry]) h)
  end.

(** HTTP's class of successful status codes (2xx), the reading of
    "success-class" in the specification of the ["Status:"] line. *)
Definition success_class (code : Z) : bool :=
  bool_decide (200 ≤ code < 300)%Z.

(** The names of the logs opened between two worlds. *)
Definition opened_logs (w w' : World) : list string :=
  map log_name (drop (length (logs w)) (logs w')).

(** Per-response sections with a rule between consecutive ones, the
    layout the specification gives for a redirect chain. *)
Fixpoint separated (sections : list (list (Stream * string)))
  : list (Stream * string) :=
  match sections with
  | [] => []
  | [sec] => sec
  | sec :: rest => sec ++ rule_entry :: separated rest
  end.

(** Order of two pairs by key: Python's [<=] and [<] on [str]. *)
Definition key_le (a b : string * string) : Prop := String.leb a.1 b.1 = true.
Definition key_lt (a b : string * string) : Prop := String.ltb a.1 b.1 = true.

(** [n] consecutive calls of [getSession], with what each returned. *)
Fixpoint getSession_n (n : nat) : St (list Session) :=
  match n with
  | O => mret []
  | S n' => s ← getSession; ss ← getSession_n n'; mret (s :: ss)
  end.

(** The stored session, if any, is an object that has been allocated. *)
Definition World_wf (w : World) : Prop :=
  ∀ s, _session w = Some s → s < next_object w.

#[global] Instance Stream_eq_dec : EqDecision Stream.
Proof. solve_decision. Defined.

(** The entry is written to the error-output channel. *)
Definition is_stderr (ln : Stream * string) : Prop := ln.1 = stderr.

#[global] Instance is_stderr_dec ln : Decision (is_stderr ln).
Proof. unfold is_stderr. apply _. Defined.

(** The text of the entry starts with one of [heads]. *)
Definition head_in (heads : list string) (ln : Stream * string) : bool :=
  existsb (λ h, String.prefix h ln.2) heads.

(** How the entries of each part of the transcript can start. *)
Definition summary_heads : list string :=
  ["Performing "; "Parameters:"; tab; "Data:"].

Definition response_heads : list string :=
  ["Request Header:"; tab; "URL: "; "Status: "; "Response Header:";
   " ------ Content ------"].

Definition redirect_heads : list string :=
  (nl +:+ "Redirected ") :: "=" :: response_heads.

(** Neither of two texts is a prefix of the other. *)
Definition clash (a b : string) : bool :=
  negb (String.prefix a b) && negb (String.prefix b a).

(** ** Concrete inputs *)

(** A fresh process: no session yet, nothing logged, nothing sent. *)
Definition w0 : World := mkWorld None 0 [] [] [] [].

(** A base class that accepts the keywords it is given. *)
Definition accept_kwargs : gmap string Opaque → option ConfigErrors := λ _, None.

(** Transports: one that answers every request with [r], one that cannot
    connect. *)
Definition answer (r : Response) : Session → RequestKwargs → Exception + Response :=
  λ _ _, inr r.

Definition refuse (detail : string) : Session → RequestKwargs → Exception + Response :=
  λ _ _, inl (ConnectionError detail).

Definition no_kwargs : Kwargs := mkKwargs None None ∅.

(** A step as [__init__] leaves it. *)
Definition step_of (method url : string) (params : option dict) (data : option Data)
  : HTTPStep :=
  mkHTTPStep method url params data ∅ ∅ (DescStr "Requested") None.

Definition ex_url : string := "http://example.test/ok".

Definition ex_ok : Response :=
  mkResponse ex_url 200 [("User-Agent", "python-requests")]
    [("Content-Type", "text/plain")] "hi" [].

Definition ex_created : Response :=
  mkResponse ex_url 201 [] [("Location", "/items/1")] "" [].

Definition ex_not_found : Response :=
  mkResponse ex_url 404 [] [] "missing" [].

Definition ex_moved : Response :=
  mkResponse "http://example.test/old" 301 [] [("Location", ex_url)] "moved" [].

Definition ex_redirected : Response :=
  mkResponse ex_url 200 [] [] "hi" [ex_moved].

(** ** Sequences of calls on the shared session *)

Inductive SessionOp :=
  | OpGet
  | OpSet (s : option Session)
  | OpClose.

Definition session_op (op : SessionOp) : St unit :=
  match op with
  | OpGet => getSession;; mret tt
  | OpSet s => setSession s
  | OpClose => closeSession
  end.

Definition session_ops (ops : list SessionOp) : St unit :=
  for_each ops session_op.

Definition is_OpSet (op : SessionOp) : bool :=
  match op with
  | OpSet _ => true
  | _ => false
  end.

(** The stored session and the closed ones have been allocated, and the
    stored session is not a closed one. *)
Definition session_inv (w : World) : Prop :=
  World_wf w ∧
  (∀ s, s ∈ closed w → s < next_object w) ∧
  (∀ s, _session w = Some s → s ∉ closed w).

(** A world in which the transcript log, and nothing else, is open. *)
Definition w_log : World := (addLog "log" w0).2.

(** ** Lemmas on [sorted] *)

Lemma String_leb_false s1 s2 : String.leb s1 s2 = false → String.leb s2 s1 = true.
Proof. intros H. destruct (String.leb_total s1 s2); congruence. Qed.

Lemma String_leb_trans s1 s2 s3 :
  String.leb s1 s2 = true → String.leb s2 s3 = true → String.leb s1 s3 = true.
Proof.
  intros H1%Is_true_true H2%Is_true_true. apply Is_true_true.
  exact (transitivity (R := String.le) H1 H2).
Qed.

Lemma String_leb_ne_ltb s1 s2 :
  String.leb s1 s2 = true → s1 ≠ s2 → String.ltb s1 s2 = true.
Proof.
  unfold String.leb, String.ltb. intros Hle Hne.
  destruct (String.compare s1 s2) eqn:Hc; try done.
  by apply String.compare_eq_iff in Hc.
Qed.

Lemma String_ltb_asym s1 s2 :
  String.ltb s1 s2 = true → String.ltb s2 s1 = true → False.
Proof.
  unfold String.ltb. rewrite (String.compare_antisym s1 s2).
  by destruct (String.compare s2 s1).
Qed.

Lemma key_le_trans : Transitive key_le.
Proof. intros a b c. apply String_leb_trans. Qed.

Lemma insert_by_key_perm x l : insert_by_key x l ≡ₚ x :: l.
Proof.
  induction l as [|y l IH]; simpl; [done|].
  destruct (String.leb x.1 y.1); [done|].
  rewrite IH. apply Permutation_swap.
Qed.

Lemma sorted_perm l : sorted l ≡ₚ l.
Proof.
  induction l as [|x l IH]; simpl; [done|].
  by rewrite insert_by_key_perm, IH.
Qed.

Lemma insert_by_key_Sorted x l :
  Sorted key_le l → Sorted key_le (insert_by_key x l).
Proof.
  induction 1 as [|y l Hs IH Hhd]; simpl.
  - by repeat constructor.
  - destruct (String.leb x.1 y.1) eqn:Hxy.
    + constructor; [by constructor|]. by constructor.
    + constructor; [done|].
      apply String_leb_false in Hxy.
      destruct Hhd as [|z l Hyz]; simpl.
      * by constructor.
      * destruct (String.leb x.1 z.1); by constructor.
  Qed.

Lemma sorted_Sorted l : Sorted key_le (sorted l).
Proof.
  induction l as [|x l IH]; simpl; [constructor|].
  by apply insert_by_key_Sorted.
Qed.

(** On distinct keys, ascending is strictly ascending. *)
Lemma StronglySorted_key_lt l :
  NoDup l.*1 → StronglySorted key_le l → StronglySorted key_lt l.
Proof.
  induction l as [|x l IH]; [constructor|].
  rewrite fmap_cons, NoDup_cons. intros [Hx Hnd] [Hall Hs]%StronglySorted_cons.
  constructor; [by apply IH|].
  rewrite Forall_forall in *. intros y Hy.
  apply String_leb_ne_ltb; [by apply Hall|].
  intros Heq. apply Hx. rewrite Heq. by apply list_elem_of_fmap_2.
Qed.

Lemma sorted_strict l : dict_wf l → StronglySorted key_lt (sorted l).
Proof.
  intros Hnd. apply StronglySorted_key_lt.
  - unfold dict_wf in Hnd. by rewrite (sorted_perm l).
  - apply Sorted_StronglySorted; [apply key_le_trans|]. apply sorted_Sorted.
Qed.

(** The result does not depend on the order of insertion. *)
Lemma sorted_insertion_order l l' :
  dict_wf l → l' ≡ₚ l → sorted l' = sorted l.
Proof.
  intros Hnd Hp.
  assert (dict_wf l') as Hnd' by (unfold dict_wf in *; by rewrite Hp).
  apply (StronglySorted_unique_strong key_lt).
  - intros x1 x2 _ _ H12 H21. destruct (String_ltb_asym _ _ H12 H21).
  - by apply sorted_strict.
  - by apply sorted_strict.
  - by rewrite !sorted_perm.
Qed.

(** ** Lemmas on the sink *)

Lemma St_bind_eq {A B} (m : St A) (f : A → St B) w :
  (m ≫= f) w = f (m w).1 (m w).2.
Proof. unfold mbind, St_bind. by destruct (m w). Qed.

Lemma set_logs_id w : set_logs (logs w) w = w.
Proof. by destruct w. Qed.

Lemma append_lines_nil l : append_lines [] l = l.
Proof. destruct l. unfold append_lines. simpl. by rewrite app_nil_r. Qed.

Lemma append_lines_app ls1 ls2 l :
  append_lines ls2 (append_lines ls1 l) = append_lines (ls1 ++ ls2) l.
Proof. unfold append_lines. simpl. by rewrite app_assoc. Qed.

Lemma alter_append_lines ls1 ls2 log (L : list Log) :
  alter (append_lines ls2) log (alter (append_lines ls1) log L)
  = alter (append_lines (ls1 ++ ls2)) log L.
Proof.
  rewrite list_alter_alter_eq. apply list_alter_ext; [|done].
  intros x _. apply append_lines_app.
Qed.

(** A loop of writes to one stream of one log appends the mapped list. *)
Lemma for_each_add_line {A} st log (f : A → string) (l : list A) w :
  for_each l (λ x, add_line st log (f x)) w
  = (tt, set_logs (alter (append_lines (map (λ x, (st, f x)) l)) log (logs w)) w).
Proof.
  revert w. induction l as [|x l IH]; intros w; simpl.
  - rewrite (list_alter_id _ _ _ append_lines_nil), set_logs_id. done.
  - rewrite St_bind_eq, IH. simpl. by rewrite alter_append_lines.
Qed.

Lemma add_line_eq st log txt w :
  add_line st log txt w
  = (tt, set_logs (alter (append_lines [(st, txt)]) log (logs w)) w).
Proof. done. Qed.

Lemma addLog_eq name w :
  addLog name w = (length (logs w), set_logs (logs w ++ [mkLog name [] false]) w).
Proof. done. Qed.

Lemma finish_eq log w :
  finish log w = (tt, set_logs (alter set_finished log (logs w)) w).
Proof. done. Qed.

Lemma mret_eq {A} (a : A) (w : World) : mret (M := St) a w = (a, w).
Proof. done. Qed.

Lemma logs_set_logs L w : logs (set_logs L w) = L.
Proof. done. Qed.

Lemma set_logs_set_logs L L' w : set_logs L (set_logs L' w) = set_logs L w.
Proof. done. Qed.

Lemma bind_add_line {B} st log txt (f : unit → St B) w :
  (add_line st log txt ≫= f) w
  = f tt (set_logs (alter (append_lines [(st, txt)]) log (logs w)) w).
Proof. by rewrite St_bind_eq. Qed.

Lemma bind_for_each_add_line {A B} st log (g : A → string) l (f : unit → St B) w :
  (for_each l (λ x, add_line st log (g x)) ≫= f) w
  = f tt (set_logs (alter (append_lines (map (λ x, (st, g x)) l)) log (logs w)) w).
Proof. by rewrite St_bind_eq, for_each_add_line. Qed.

Lemma bind_addLog {B} name (f : LogHandle → St B) w :
  (addLog name ≫= f) w
  = f (length (logs w)) (set_logs (logs w ++ [mkLog name [] false]) w).
Proof. by rewrite St_bind_eq. Qed.

Lemma bind_finish {B} log (f : unit → St B) w :
  (finish log ≫= f) w = f tt (set_logs (alter set_finished log (logs w)) w).
Proof. by rewrite St_bind_eq. Qed.

Lemma bind_mret {A B} (a : A) (f : A → St B) w : (mret a ≫= f) w = f a w.
Proof. by rewrite St_bind_eq. Qed.

Lemma alter_snoc (f : Log → Log) (L : list Log) c :
  alter f (length L) (L ++ [c]) = L ++ [f c].
Proof. by rewrite <-(Nat.add_0_r (length L)), alter_app_r. Qed.

Lemma alter_middle (f : Log → Log) (L : list Log) c R :
  alter f (length L) (L ++ c :: R) = L ++ f c :: R.
Proof. by rewrite <-(Nat.add_0_r (length L)), alter_app_r. Qed.

Lemma getSession_logs w : logs (getSession w).2 = logs w.
Proof. unfold getSession. by destruct (_session w). Qed.

Lemma getSession_sent w : sent (getSession w).2 = sent w.
Proof. unfold getSession. by destruct (_session w). Qed.

Lemma St_bind_assoc {A B C} (m : St A) (g : A → St B) (f : B → St C) w :
  ((m ≫= g) ≫= f) w = (m ≫= λ x, g x ≫= f) w.
Proof. rewrite !St_bind_eq. done. Qed.

(** One step of a coroutine that talks to the sink. *)
Ltac sink_step :=
  rewrite ?St_bind_assoc;
  first [ rewrite bind_for_each_add_line | rewrite bind_add_line
        | rewrite bind_addLog | rewrite bind_finish | rewrite bind_mret
        | rewrite for_each_add_line | rewrite add_line_eq
        | rewrite addLog_eq | rewrite finish_eq | rewrite mret_eq ];
  cbn [fst snd];
  rewrite ?logs_set_logs, ?set_logs_set_logs, ?alter_append_lines.

Ltac world_norm :=
  unfold set_logs;
  cbn [logs _session next_object closed triggers sent fst snd];
  rewrite <-?app_assoc; cbn [app];
  rewrite ?alter_middle, ?append_lines_app;
  rewrite <-?app_assoc; cbn [app].

Section HTTPStep_facts.

Variable request : Session → RequestKwargs → Exception + Response.

(** [log_response] appends [response_lines] to the transcript and opens
    one content log holding the body. *)
Lemma log_response_spec log r w :
  log_response log r w
  = (tt, set_logs (alter (append_lines (response_lines r)) log (logs w)
                   ++ [content_log_of r]) w).
Proof.
  unfold log_response, addHeader, addStdout, addStderr, response_lines,
    status_entry.
  case_bool_decide; do 9 sink_step;
    rewrite alter_snoc; unfold content_log_of, append_lines at 1; simpl;
    by rewrite <-!app_assoc.
Qed.

(** The loop over the redirect chain: one section and one rule per hop,
    one content log per hop. *)
Lemma redirect_loop_spec log (h : list Response) w :
  log < length (logs w) →
  for_each h (λ rr, log_response log rr;;
                    addStdout log (str_mul "=" 60 +:+ nl)) w
  = (tt, set_logs
           (alter (append_lines
                     (concat (map (λ rr, response_lines rr ++ [rule_entry]) h)))
              log (logs w) ++ map content_log_of h) w).
Proof.
  revert w. induction h as [|rr h IH]; intros w Hlog.
  - simpl. rewrite (list_alter_id _ _ _ append_lines_nil), app_nil_r.
    by rewrite set_logs_id.
  - cbn [for_each]. rewrite !St_bind_eq, log_response_spec. cbn [fst snd].
    unfold addStdout. rewrite add_line_eq. cbn [fst snd].
    rewrite IH; rewrite !logs_set_logs.
    + rewrite !set_logs_set_logs. do 2 f_equal.
      rewrite !alter_app_l by (rewrite ?length_alter; lia).
      rewrite !alter_append_lines. cbn [map concat].
      by rewrite <-!app_assoc.
    + rewrite alter_app_l by (rewrite ?length_alter; lia).
      rewrite length_app, !length_alter. lia.
Qed.

Lemma bind_session_request {B} s rk (f : Exception + Response → St B) w :
  (session_request request s rk ≫= f) w
  = f (request s rk)
      (mkWorld (_session w) (next_object w) (closed w) (triggers w) (logs w)
         (sent w ++ [(s, rk)])).
Proof. by rewrite St_bind_eq. Qed.

(** The whole of [run], by the way [session.request] ends. *)
Lemma run_spec self w :
  let s := (getSession w).1 in
  let wS := (getSession w).2 in
  let rk := requestkwargs_of self in
  let self1 := set_session (Some s) self in
  let world L :=
    mkWorld (_session wS) (next_object wS) (closed wS) (triggers wS)
      (logs w ++ L) (sent w ++ [(s, rk)]) in
  run request self w =
  match request s rk with
  | inr r =>
      (Returned (if bool_decide (resp_status_code r < 400)%Z
                 then SUCCESS else FAILURE),
       set_descriptionDone
         (DescList ["Status code: " +:+ format_d (resp_status_code r)]) self1,
       world (mkLog "log"
                (request_summary self ++ redirect_lines r ++ response_lines r)
                true
              :: map content_log_of (resp_history r ++ [r])))
  | inl (ConnectionError e) =>
      (Returned FAILURE, self1,
       world [mkLog "log"
                (request_summary self
                 ++ [(stderr,
                      "An exception occurred while performing the request: "
                      +:+ e)])
                false])
  | inl e =>
      (Raised e, self1, world [mkLog "log" (request_summary self) false])
  end.
Proof.
  intros s wS rk self1 world. subst s wS world self1 rk.
  unfold run. rewrite St_bind_eq.
  generalize (getSession_logs w) (getSession_sent w).
  destruct (getSession w) as [s wS]. cbn [fst snd]. intros HL HS.
  unfold addHeader, addStdout, addStderr.
  sink_step. rewrite HL. sink_step. rewrite alter_snoc.
  (* what follows the request, for any lines [X] written so far *)
  match goal with
  | |- context [mbind ?k (session_request request s _)] => set (tail := k)
  end.
  assert (Htail : ∀ res X sentv,
    tail res
      (mkWorld (_session wS) (next_object wS) (closed wS) (triggers wS)
         (logs w ++ [append_lines X (mkLog "log" [] false)]) sentv)
    = match res with
      | inr r =>
          (Returned (if bool_decide (resp_status_code r < 400)%Z
                     then SUCCESS else FAILURE),
           set_descriptionDone
             (DescList ["Status code: " +:+ format_d (resp_status_code r)])
             (set_session (Some s) self),
           mkWorld (_session wS) (next_object wS) (closed wS) (triggers wS)
             (logs w ++ mkLog "log" (X ++ redirect_lines r ++ response_lines r) true
                        :: map content_log_of (resp_history r ++ [r])) sentv)
      | inl (ConnectionError e) =>
          (Returned FAILURE, set_session (Some s) self,
           mkWorld (_session wS) (next_object wS) (closed wS) (triggers wS)
             (logs w ++ [mkLog "log"
                (X ++ [(stderr,
                        "An exception occurred while performing the request: "
                        +:+ e)]) false]) sentv)
      | inl e =>
          (Raised e, set_session (Some s) self,
           mkWorld (_session wS) (next_object wS) (closed wS) (triggers wS)
             (logs w ++ [mkLog "log" X false]) sentv)
      end).
  { intros [[e|e]|r] X sentv; subst tail; cbn beta iota.
    - sink_step. world_norm. sink_step. reflexivity.
    - sink_step. reflexivity.
    - unfold redirect_lines.
      destruct (resp_history r) as [|h hs] eqn:Hh;
      [ rewrite bind_mret
      | sink_step; world_norm;
        rewrite St_bind_eq, redirect_loop_spec
          by (cbn [logs]; rewrite length_app; simpl; lia);
        world_norm ];
      rewrite St_bind_eq, log_response_spec; world_norm;
      rewrite bind_finish; world_norm;
      case_bool_decide; rewrite mret_eq;
      unfold append_lines, set_finished;
      cbn [log_name log_lines log_finished app map concat];
      rewrite ?map_app, <-?app_assoc; reflexivity. }
  clearbody tail.
  unfold request_summary, requestkwargs_of.
  destruct self as [m u ps d o bk dd ss].
  destruct ps as [[|p ps]|]; destruct d as [[[|d ds]|[|c cs]]|];
    repeat (cbn [params data method url others set_session params_truthy
                 data_truthy default from_option rk_data set_rk_params
                 fmap option_fmap option_map id];
            sink_step; rewrite ?alter_snoc, ?append_lines_app).
  all: rewrite bind_session_request; unfold set_logs;
    cbn [logs _session next_object closed triggers sent fst snd];
    rewrite HS, Htail; clear Htail.
  all: unfold set_rk_params;
       cbn [params_truthy data_truthy default from_option id data_section
            parameters_section app rk_method rk_url rk_params
            rk_data rk_others fmap option_fmap option_map];
       match goal with
       | |- context [request ?s' ?rk] => destruct (request s' rk) as [[e|e]|r]
       end;
       rewrite <-?app_assoc, ?app_nil_r; reflexivity.
Qed.

End HTTPStep_facts.

(** ** How entries start *)

Lemma prefix_compat a b s :
  String.prefix a s = true → String.prefix b s = true →
  String.prefix a b = true ∨ String.prefix b a = true.
Proof.
  revert a b. induction s as [|c s IH]; intros [|x a] [|y b]; simpl; auto;
    try done.
  destruct (ascii_dec x c) as [->|]; [|done].
  destruct (ascii_dec y c) as [->|]; [|done].
  destruct (ascii_dec c c); [|done]. apply IH.
Qed.

Lemma head_in_clash heads p ln :
  head_in heads ln = true →
  forallb (clash p) heads = true →
  String.prefix p ln.2 = false.
Proof.
  unfold head_in. rewrite existsb_exists, forallb_forall.
  intros (h & Hh & Hpre) Hall. specialize (Hall h Hh).
  destruct (String.prefix p ln.2) eqn:Hp; [|done].
  unfold clash in Hall.
  destruct (prefix_compat _ _ _ Hp Hpre) as [H|H]; rewrite H in Hall;
    simpl in Hall; [done|]. by rewrite andb_false_r in Hall.
Qed.

Lemma head_in_weaken heads heads' ln :
  head_in heads ln = true → heads ⊆ heads' → head_in heads' ln = true.
Proof.
  unfold head_in. rewrite !existsb_exists. intros (h & Hh & Hpre) Hsub.
  exists h. split; [|done]. apply list_elem_of_In, Hsub, list_elem_of_In, Hh.
Qed.

Lemma prefix_append p s : String.prefix p (p +:+ s) = true.
Proof.
  induction p as [|c p IH]; simpl; [by destruct s|].
  by destruct (ascii_dec c c).
Qed.

Lemma head_in_intro heads st h rest :
  h ∈ heads → head_in heads (st, h +:+ rest) = true.
Proof.
  intros Hh. unfold head_in. apply existsb_exists. exists h.
  split; [by apply list_elem_of_In|]. apply prefix_append.
Qed.

Ltac head_in_solve :=
  split; [reflexivity|]; apply head_in_intro; repeat constructor.

Ltac sub_solve :=
  let x := fresh in
  intros x; rewrite ?elem_of_cons, ?elem_of_nil; tauto.

Lemma kv_lines_heads (m : dict) ln :
  ln ∈ map (λ kv, (header, kv_line kv)) m → ln.1 = header ∧ head_in [tab] ln = true.
Proof. intros (kv & -> & _)%list_elem_of_fmap. head_in_solve. Qed.

Lemma request_summary_heads self ln :
  ln ∈ request_summary self →
  ln.1 = header ∧
  head_in (if params_truthy (params self) then summary_heads
           else ["Performing "; tab; "Data:"]) ln = true.
Proof.
  unfold request_summary, parameters_section, data_section.
  rewrite !elem_of_app, list_elem_of_singleton.
  intros [->|[H|H]].
  - destruct (params_truthy _); head_in_solve.
  - destruct (params_truthy _); [|by apply elem_of_nil in H].
    apply elem_of_cons in H as [->|H]; [head_in_solve|].
    apply kv_lines_heads in H as [? H]. split; [done|].
    eapply head_in_weaken; [done|]. unfold summary_heads. sub_solve.
  - destruct (data_truthy _); [|by apply elem_of_nil in H].
    assert (ln.1 = header ∧ head_in [tab; "Data:"] ln = true) as [? Hd].
    { destruct (data self) as [[m|t]|]; simpl in H.
      - apply elem_of_cons in H as [->|H]; [head_in_solve|].
        apply kv_lines_heads in H as [? H]. split; [done|].
        eapply head_in_weaken; [done|]. sub_solve.
      - apply elem_of_cons in H as [->|H]; [head_in_solve|].
        apply list_elem_of_singleton in H as ->. head_in_solve.
      - by apply elem_of_nil in H. }
    split; [done|]. eapply head_in_weaken; [done|].
    unfold summary_heads. destruct (params_truthy _); sub_solve.
Qed.

Lemma response_lines_heads r ln :
  ln ∈ response_lines r → head_in response_heads ln = true.
Proof.
  unfold response_lines, status_entry.
  rewrite !elem_of_app, !elem_of_cons, !elem_of_nil.
  intros [[->|[]]|[H|[[->|[->|[->|[]]]]|[H|[->|[]]]]]];
    try (apply kv_lines_heads in H as [_ H];
         eapply head_in_weaken; [done|]; unfold response_heads; sub_solve);
    apply head_in_intro; repeat constructor.
Qed.

Lemma redirect_lines_heads r ln :
  ln ∈ redirect_lines r → head_in redirect_heads ln = true.
Proof.
  unfold redirect_lines. destruct (resp_history r) as [|h hs].
  { by intros ?%elem_of_nil. }
  generalize (h :: hs). intros l. rewrite elem_of_cons.
  intros [->|H].
  { apply (head_in_intro _ stdout (nl +:+ "Redirected ")
             (format_d (Z.of_nat (length l)) +:+ " times:" +:+ nl +:+ nl)).
    repeat constructor. }
  apply list_elem_of_In, in_concat in H as (sec & Hsec & Hln).
  apply list_elem_of_In, list_elem_of_fmap in Hsec as (rr & -> & _).
  apply list_elem_of_In in Hln.
  apply elem_of_app in Hln as [Hln|Hln].
  - eapply head_in_weaken; [by apply (response_lines_heads rr)|].
    unfold redirect_heads. sub_solve.
  - apply list_elem_of_singleton in Hln as ->.
    apply (head_in_intro _ stdout "=" (str_mul "=" 59 +:+ nl)).
    repeat constructor.
Qed.

(** ** The shared session *)

Lemma getSession_Some w s : _session w = Some s → getSession w = (s, w).
Proof. unfold getSession. by intros ->. Qed.

Lemma getSession_None w :
  _session w = None →
  getSession w
  = (next_object w,
     mkWorld (Some (next_object w)) (S (next_object w)) (closed w)
       (triggers w ++ [("before", "shutdown", call_closeSession)])
       (logs w) (sent w)).
Proof. unfold getSession. by intros ->. Qed.

Lemma getSession_stored w : _session (getSession w).2 = Some (getSession w).1.
Proof.
  destruct (_session w) as [s|] eqn:Hs.
  - by rewrite (getSession_Some _ _ Hs).
  - by rewrite (getSession_None _ Hs).
Qed.

Lemma getSession_n_Some n w s :
  _session w = Some s → getSession_n n w = (replicate n s, w).
Proof.
  intros Hs. induction n as [|n IH]; [done|].
  cbn [getSession_n]. rewrite St_bind_eq, (getSession_Some _ _ Hs). cbn [fst snd].
  by rewrite St_bind_eq, IH.
Qed.

Lemma closeSession_Some w s :
  _session w = Some s →
  closeSession w
  = (tt, mkWorld None (next_object w) (closed w ++ [s]) (triggers w) (logs w)
           (sent w)).
Proof. unfold closeSession. by intros ->. Qed.

(** C9. [getSession] is idempotent between lifecycle events: once a session
    is stored, any number of further calls return that same object and leave
    the world as it is.  The call that constructs the session (none was
    stored) registers the before-shutdown trigger for [closeSession]; a call
    that finds one registers nothing.  After [closeSession] the stored
    session is [None] and the old one has been closed, so the next
    [getSession] constructs a new object (and registers the trigger again),
    different from the closed one in a world whose stored session was
    allocated. *)
Theorem getSession_lifecycle (w : World) :
  let s1 := (getSession w).1 in
  let w1 := (getSession w).2 in
  let w2 := (closeSession w1).2 in
  let s3 := (getSession w2).1 in
  let w3 := (getSession w2).2 in
  (∀ n, getSession_n n w1 = (replicate n s1, w1)) ∧
  _session w1 = Some s1 ∧
  (_session w = None →
   s1 = next_object w ∧
   triggers w1 = triggers w ++ [("before", "shutdown", call_closeSession)]) ∧
  (∀ s, _session w = Some s → s1 = s ∧ w1 = w) ∧
  _session w2 = None ∧ closed w2 = closed w1 ++ [s1] ∧
  s3 = next_object w1 ∧ next_object w3 = S (next_object w1) ∧
  _session w3 = Some s3 ∧
  triggers w3 = triggers w1 ++ [("before", "shutdown", call_closeSession)] ∧
  (World_wf w → s3 ≠ s1).
Proof.
  intros s1 w1 w2 s3 w3.
  assert (Hst : _session w1 = Some s1) by apply getSession_stored.
  assert (Hw2 : w2 = mkWorld None (next_object w1) (closed w1 ++ [s1])
                       (triggers w1) (logs w1) (sent w1)).
  { subst w2. by rewrite (closeSession_Some _ _ Hst). }
  assert (Hg3 : getSession w2
                = (next_object w1,
                   mkWorld (Some (next_object w1)) (S (next_object w1))
                     (closed w1 ++ [s1])
                     (triggers w1 ++ [("before", "shutdown", call_closeSession)])
                     (logs w1) (sent w1))).
  { rewrite Hw2. by rewrite getSession_None. }
  subst s3 w3. rewrite Hg3, Hw2. cbn [fst snd _session closed next_object triggers].
  repeat split; try done.
  - intros n. by apply getSession_n_Some.
  - subst s1. by rewrite (getSession_None _ H).
  - subst w1. by rewrite (getSession_None _ H).
  - subst s1. by rewrite (getSession_Some _ _ H).
  - subst w1. by rewrite (getSession_Some _ _ H).
  - intros Hwf. subst s1 w1.
    destruct (_session w) as [s|] eqn:Hs.
    + rewrite (getSession_Some _ _ Hs). cbn [fst snd].
      specialize (Hwf s Hs). lia.
    + rewrite (getSession_None _ Hs). cbn [fst snd next_object]. lia.
Qed.

(** The lifecycle from a fresh process: the first call constructs session
    [0], three more calls return it, closing and asking again gives session
    [1]. *)
Lemma getSession_lifecycle_witness :
  getSession_n 3 (getSession w0).2 = ([0; 0; 0], (getSession w0).2) ∧
  triggers (getSession w0).2 = [("before", "shutdown", call_closeSession)] ∧
  (getSession (closeSession (getSession w0).2).2).1 = 1 ∧
  (getSession (closeSession (getSession w0).2).2).1 ≠ (getSession w0).1.
Proof.
  pose proof (getSession_lifecycle w0) as (Hn & _ & Hnone & _ & _ & _ & Hs3 & _ & _ & _ & Hne).
  split; [exact (Hn 3)|]. split; [apply Hnone; reflexivity|].
  split; [exact Hs3|]. apply Hne. intros s Hs. discriminate Hs.
Defined.

(** ** The outcome of [run] *)

Lemma request_summary_summary_heads self ln :
  ln ∈ request_summary self → ln.1 = header ∧ head_in summary_heads ln = true.
Proof.
  intros [? H]%request_summary_heads. split; [done|].
  eapply head_in_weaken; [done|].
  unfold summary_heads. destruct (params_truthy _); sub_solve.
Qed.

Lemma filter_is_stderr_nil (l : list (Stream * string)) :
  (∀ ln, ln ∈ l → ln.1 ≠ stderr) → filter is_stderr l = [].
Proof.
  induction l as [|x l IH]; intros Hl; [done|].
  rewrite filter_cons_False.
  - apply IH. intros ln Hln. apply Hl. by right.
  - apply Hl. by left.
Qed.

(** C1. When the request completes (the transport returns a final response
    [r]), the step returns SUCCESS for a status code below 400 and FAILURE
    for 400 or above, and its done-description becomes
    ["Status code: <code>"] with the final response's code. *)
Theorem run_status_classification
    (request : Session → RequestKwargs → Exception + Response)
    (self : HTTPStep) (w : World) (r : Response) :
  request (getSession w).1 (requestkwargs_of self) = inr r →
  let out := (run request self w).1.1 in
  let self' := (run request self w).1.2 in
  ((resp_status_code r < 400)%Z → out = Returned SUCCESS) ∧
  ((400 ≤ resp_status_code r)%Z → out = Returned FAILURE) ∧
  descriptionDone self'
  = DescList ["Status code: " +:+ format_d (resp_status_code r)].
Proof.
  intros Hr out self'. subst out self'.
  rewrite run_spec, Hr. cbn [fst snd descriptionDone set_descriptionDone].
  repeat split.
  - intros Hlt. by rewrite bool_decide_eq_true_2.
  - intros Hge. rewrite bool_decide_eq_false_2; [done|lia].
Qed.

(** GET http://example.test/ok answered 200 with body "hi": SUCCESS,
    description "Status code: 200". *)
Lemma run_status_classification_witness :
  (run (answer ex_ok) (step_of "GET" ex_url None None) w0).1.1 = Returned SUCCESS ∧
  descriptionDone (run (answer ex_ok) (step_of "GET" ex_url None None) w0).1.2
  = DescList ["Status code: 200"].
Proof.
  pose proof (run_status_classification (answer ex_ok)
                (step_of "GET" ex_url None None) w0 ex_ok eq_refl)
    as (Hlt & _ & Hdesc).
  split; [apply Hlt; reflexivity|exact Hdesc].
Defined.

(** C4. When the transport raises a connection error, [run] returns (no
    exception leaves it) with FAILURE; the transcript log, the only log
    opened, holds exactly one error-output entry, which carries the failure
    detail; no entry of it starts with "Status:"; and the done-description
    of the step is left as it was. *)
Theorem run_connection_error
    (request : Session → RequestKwargs → Exception + Response)
    (self : HTTPStep) (w : World) (e : string) :
  request (getSession w).1 (requestkwargs_of self) = inl (ConnectionError e) →
  let out := (run request self w).1.1 in
  let self' := (run request self w).1.2 in
  let w' := (run request self w).2 in
  out = Returned FAILURE ∧
  descriptionDone self' = descriptionDone self ∧
  ∃ lg, logs w' = logs w ++ [lg] ∧ log_name lg = "log" ∧
        filter is_stderr (log_lines lg)
        = [(stderr, "An exception occurred while performing the request: " +:+ e)] ∧
        ∀ ln, ln ∈ log_lines lg → String.prefix "Status:" ln.2 = false.
Proof.
  intros Hr out self' w'. subst out self' w'.
  rewrite run_spec, Hr. cbn [fst snd descriptionDone set_session logs].
  split; [done|]. split; [done|].
  eexists. split; [done|]. cbn [log_name log_lines]. split; [done|]. split.
  - rewrite filter_app, filter_is_stderr_nil.
    + by rewrite filter_cons_True.
    + intros ln [Hh _]%request_summary_summary_heads. by rewrite Hh.
  - intros ln [Hln|Hln]%elem_of_app.
    + apply request_summary_summary_heads in Hln as [_ Hln].
      by apply (head_in_clash _ _ _ Hln).
    + by apply list_elem_of_singleton in Hln as ->.
Qed.

(** A refused connection: FAILURE, the description still "Requested", one
    error entry with the detail. *)
Lemma run_connection_error_witness :
  (run (refuse "Connection refused") (step_of "GET" ex_url None None) w0).1.1
  = Returned FAILURE ∧
  descriptionDone
    (run (refuse "Connection refused") (step_of "GET" ex_url None None) w0).1.2
  = DescStr "Requested".
Proof.
  pose proof (run_connection_error (refuse "Connection refused")
                (step_of "GET" ex_url None None) w0 "Connection refused" eq_refl)
    as (Hout & Hdesc & _).
  split; [exact Hout|exact Hdesc].
Defined.

(** ** What [run] leaves in the world *)

(** One request is handed to the session, whatever the outcome. *)
Lemma run_sent request self w :
  sent (run request self w).2
  = sent w ++ [((getSession w).1, requestkwargs_of self)].
Proof.
  rewrite run_spec.
  by destruct (request _ _) as [[e|e]|r].
Qed.

(** The transcript log is the first log [run] opens; it starts with the
    request summary. *)
Lemma run_transcript request self w :
  ∃ rest fin,
    logs (run request self w).2 !! length (logs w)
    = Some (mkLog "log" (request_summary self ++ rest) fin).
Proof.
  rewrite run_spec.
  destruct (request _ _) as [[e|e]|r]; cbn [snd logs];
    rewrite list_lookup_middle by done.
  - by eexists _, _.
  - exists [], false. by rewrite app_nil_r.
  - by eexists _, _.
Qed.

(** C2. For a non-empty [params] mapping (distinct keys), the
    ["Parameters:"] section of the transcript lists the pairs of
    [sorted(params.items())]: a rearrangement of the mapping's items in
    strictly ascending order of key, the same for every insertion order of
    the mapping; and the [params] handed to the session is that sorted list
    of pairs in place of the mapping. *)
Theorem run_params_sorted
    (request : Session → RequestKwargs → Exception + Response)
    (self : HTTPStep) (w : World) (ps : dict) :
  params self = Some ps → ps ≠ [] → dict_wf ps →
  let w' := (run request self w).2 in
  sorted ps ≡ₚ ps ∧
  StronglySorted key_lt (sorted ps) ∧
  (∀ ps', ps' ≡ₚ ps → sorted ps' = sorted ps) ∧
  (∃ lg rest,
      logs w' !! length (logs w) = Some lg ∧ log_name lg = "log" ∧
      log_lines lg
      = (header, "Performing " +:+ method self +:+ " request to "
                 +:+ url self +:+ nl)
        :: (header, "Parameters:" +:+ nl)
        :: map (λ kv, (header, kv_line kv)) (sorted ps) ++ rest) ∧
  (∃ rk, sent w' = sent w ++ [((getSession w).1, rk)] ∧
         rk_params rk = Some (ParamsItems (sorted ps))).
Proof.
  intros Hps Hne Hwf w'. subst w'.
  assert (Ht : params_truthy (params self) = true).
  { rewrite Hps. by destruct ps. }
  split; [apply sorted_perm|]. split; [by apply sorted_strict|].
  split; [intros ps' Hp; by apply sorted_insertion_order|]. split.
  - destruct (run_transcript request self w) as (rest & fin & Hlog).
    eexists _, _. split; [exact Hlog|]. split; [done|].
    cbn [log_lines]. unfold request_summary, parameters_section.
    rewrite Ht, Hps. cbn [default from_option id app].
    by rewrite <-!app_assoc.
  - eexists. split; [apply run_sent|].
    unfold requestkwargs_of. by rewrite Ht, Hps.
Qed.

(** params = {"b": "2", "a": "1"}: listed and sent as a, b; the same for
    {"a": "1", "b": "2"}. *)
Lemma run_params_sorted_witness :
  sorted [("b", "2"); ("a", "1")] = [("a", "1"); ("b", "2")] ∧
  sorted [("a", "1"); ("b", "2")] = sorted [("b", "2"); ("a", "1")] ∧
  ∃ rk, sent (run (answer ex_ok)
                (step_of "GET" ex_url (Some [("b", "2"); ("a", "1")]) None) w0).2
        = [(0, rk)] ∧
        rk_params rk = Some (ParamsItems [("a", "1"); ("b", "2")]).
Proof.
  assert (Hwf : dict_wf [("b", "2"); ("a", "1")]).
  { unfold dict_wf. repeat constructor; rewrite ?elem_of_cons, ?elem_of_nil;
      intros H; repeat destruct H as [H|H]; try discriminate H; destruct H. }
  pose proof (run_params_sorted (answer ex_ok)
                (step_of "GET" ex_url (Some [("b", "2"); ("a", "1")]) None) w0
                [("b", "2"); ("a", "1")] eq_refl
                ltac:(discriminate) Hwf) as (_ & _ & Hord & _ & Hsent).
  split; [reflexivity|]. split; [apply Hord, Permutation_swap|]. exact Hsent.
Defined.

(** Every entry of a transcript starts in one of the known ways. *)
Lemma run_transcript_heads request self w lg :
  logs (run request self w).2 !! length (logs w) = Some lg →
  ∀ ln, ln ∈ log_lines lg →
  head_in ((if params_truthy (params self) then summary_heads
            else ["Performing "; tab; "Data:"])
           ++ "An exception occurred" :: redirect_heads) ln = true.
Proof.
  rewrite run_spec.
  destruct (request _ _) as [[e|e]|r]; cbn [snd logs];
    rewrite list_lookup_middle by done; intros Heq ln;
    apply (inj Some) in Heq; rewrite <-Heq; clear Heq; cbn [log_lines];
    rewrite ?elem_of_app; intros Hln.
  - destruct Hln as [Hln|Hln].
    + apply request_summary_heads in Hln as [_ Hln].
      eapply head_in_weaken; [done|]. intros x Hx. apply elem_of_app. by left.
    + apply list_elem_of_singleton in Hln as ->.
      apply (head_in_intro _ stderr "An exception occurred"
               (" while performing the request: " +:+ e)).
      apply elem_of_app. right. by left.
  - apply request_summary_heads in Hln as [_ Hln].
    eapply head_in_weaken; [done|]. intros x Hx. apply elem_of_app. by left.
  - destruct Hln as [Hln|[Hln|Hln]].
    + apply request_summary_heads in Hln as [_ Hln].
      eapply head_in_weaken; [done|]. intros x Hx. apply elem_of_app. by left.
    + apply redirect_lines_heads in Hln.
      eapply head_in_weaken; [done|]. intros x Hx. apply elem_of_app.
      right. by right.
    + apply response_lines_heads in Hln.
      eapply head_in_weaken; [done|]. intros x Hx. apply elem_of_app.
      right. do 3 right. done.
Qed.

(** C10. For the empty mapping as [params], no entry of the transcript
    starts with "Parameters:", and the [params] handed to the session is the
    mapping itself, empty, not a list of pairs: the section and the
    replacement are guarded by the truth value of [params], and [{}] is
    false (while it is not [None], so it is still forwarded). *)
Theorem run_empty_params
    (request : Session → RequestKwargs → Exception + Response)
    (self : HTTPStep) (w : World) :
  params self = Some [] →
  let w' := (run request self w).2 in
  (∃ rk, sent w' = sent w ++ [((getSession w).1, rk)] ∧
         rk_params rk = Some (ParamsDict [])) ∧
  (∃ lg, logs w' !! length (logs w) = Some lg ∧ log_name lg = "log" ∧
         ∀ ln, ln ∈ log_lines lg → String.prefix "Parameters:" ln.2 = false).
Proof.
  intros Hps w'. subst w'. split.
  - eexists. split; [apply run_sent|].
    unfold requestkwargs_of. by rewrite Hps.
  - destruct (run_transcript request self w) as (rest & fin & Hlog).
    eexists. split; [exact Hlog|]. split; [done|].
    intros ln Hln.
    pose proof (run_transcript_heads _ _ _ _ Hlog _ Hln) as Hh.
    rewrite Hps in Hh. by apply (head_in_clash _ _ _ Hh).
Qed.

(** params = {}: the session receives the empty mapping itself. *)
Lemma run_empty_params_witness :
  ∃ rk, sent (run (answer ex_ok) (step_of "GET" ex_url (Some []) None) w0).2
        = [(0, rk)] ∧
        rk_params rk = Some (ParamsDict []).
Proof.
  exact (proj1 (run_empty_params (answer ex_ok)
                  (step_of "GET" ex_url (Some []) None) w0 eq_refl)).
Defined.

(** C7. When [data] is present (true in a condition), the transcript has a
    ["Data:"] section right after the request line and the parameters: for a
    mapping, one key/value entry per item in the mapping's own iteration
    order (no sorting, unlike the parameters before it); for anything else,
    one entry with the raw value.  The [data] handed to the session is the
    value as given. *)
Theorem run_data_section
    (request : Session → RequestKwargs → Exception + Response)
    (self : HTTPStep) (w : World) (d : Data) :
  data self = Some d → data_truthy (Some d) = true →
  let w' := (run request self w).2 in
  (∃ lg rest,
      logs w' !! length (logs w) = Some lg ∧ log_name lg = "log" ∧
      log_lines lg
      = ((header, "Performing " +:+ method self +:+ " request to "
                  +:+ url self +:+ nl)
         :: (if params_truthy (params self)
             then (header, "Parameters:" +:+ nl)
                  :: map (λ kv, (header, kv_line kv))
                       (sorted (default [] (params self)))
             else []))
        ++ (header, "Data:" +:+ nl)
           :: match d with
              | DataDict m => map (λ kv, (header, kv_line kv)) m
              | DataStr s => [(header, tab +:+ s +:+ nl)]
              end
        ++ rest) ∧
  (∃ rk, sent w' = sent w ++ [((getSession w).1, rk)] ∧ rk_data rk = Some d).
Proof.
  intros Hd Ht w'. subst w'. split.
  - destruct (run_transcript request self w) as (rest & fin & Hlog).
    eexists _, _. split; [exact Hlog|]. split; [done|].
    cbn [log_lines]. unfold request_summary, parameters_section, data_section.
    rewrite Hd, Ht. cbn [from_option app].
    rewrite <-!app_assoc. cbn [app]. do 2 f_equal.
  - eexists. split; [apply run_sent|]. done.
Qed.

(** The same unsorted mapping as [params] and as [data]: the parameters are
    listed a, b and the data b, a. *)
Lemma run_data_section_witness :
  ∃ lg rest,
    logs (run (answer ex_ok)
            (step_of "POST" ex_url (Some [("b", "2"); ("a", "1")])
               (Some (DataDict [("b", "2"); ("a", "1")]))) w0).2 !! 0 = Some lg ∧
    log_name lg = "log" ∧
    log_lines lg
    = [(header, "Performing POST request to http://example.test/ok" +:+ nl);
       (header, "Parameters:" +:+ nl);
       (header, tab +:+ "a: 1" +:+ nl); (header, tab +:+ "b: 2" +:+ nl);
       (header, "Data:" +:+ nl);
       (header, tab +:+ "b: 2" +:+ nl); (header, tab +:+ "a: 1" +:+ nl)]
      ++ rest.
Proof.
  exact (proj1 (run_data_section (answer ex_ok)
                  (step_of "POST" ex_url (Some [("b", "2"); ("a", "1")])
                     (Some (DataDict [("b", "2"); ("a", "1")]))) w0
                  (DataDict [("b", "2"); ("a", "1")]) eq_refl eq_refl)).
Defined.

(** ** The constructor *)

(** C5. With the HTTP library installed, constructing a step with one of
    GET, POST, PUT, DELETE, HEAD, OPTIONS succeeds whenever the base class
    accepts the remaining keywords, and gives a step with that method and
    URL; with any other method string the constructor fails with the
    configuration error "Wrong method given", whatever the other arguments.
    The constructor is a function of its arguments alone: it reads and
    writes nothing of the world, so no request has been made when it
    fails. *)
Theorem init_method_validation
    (BuildStep__init__ : gmap string Opaque → option ConfigErrors)
    (u m : string) (kwargs : Kwargs) :
  (m ∈ known_methods →
   BuildStep__init__ (remaining_kwargs kwargs) = None →
   ∃ step,
     __init__ BuildStep__init__ (Some txrequests_module) u m kwargs
     = inr step ∧
     method step = m ∧ url step = u ∧
     session step = None) ∧
  (m ∉ known_methods →
   __init__ BuildStep__init__ (Some txrequests_module) u m kwargs
   = inl (mkConfigErrors
            ["Wrong method given: '" +:+ m +:+ "' is not known"])).
Proof.
  unfold __init__. split.
  - intros Hin Hbase. rewrite bool_decide_eq_false_2 by (intros Hn; by apply Hn).
    cbn zeta. rewrite Hbase. by eexists.
  - intros Hnot. by rewrite bool_decide_eq_true_2.
Qed.

(** GET is accepted (also through the subclass), PATCH is refused. *)
Lemma init_method_validation_witness :
  (∃ step, GET accept_kwargs (Some txrequests_module) ex_url no_kwargs = inr step ∧
           method step = "GET" ∧ url step = ex_url ∧
           session step = None) ∧
  __init__ accept_kwargs (Some txrequests_module) ex_url "PATCH" no_kwargs
  = inl (mkConfigErrors ["Wrong method given: 'PATCH' is not known"]).
Proof.
  split.
  - apply (init_method_validation accept_kwargs ex_url "GET" no_kwargs).
    + right. left.
    + reflexivity.
  - apply (init_method_validation accept_kwargs ex_url "PATCH" no_kwargs).
    unfold known_methods. rewrite !elem_of_cons, elem_of_nil.
    intros H. repeat destruct H as [H|H]; try discriminate H. destruct H.
Defined.

(** ** The entries of one response *)

(** C3, as the specification states it, fails: 201 is a success-class
    status, and its "Status:" entry goes to the error-output channel. *)
Lemma log_response_status_counterexample :
  success_class (resp_status_code ex_created) = true ∧
  log_lines <$> logs (log_response 0 ex_created w_log).2 !! 0
  = Some [(header, "Request Header:" +:+ nl);
          (stdout, "URL: http://example.test/ok" +:+ nl);
          (stderr, "Status: 201" +:+ nl);
          (header, "Response Header:" +:+ nl);
          (header, tab +:+ "Location: /items/1" +:+ nl);
          (stdout, " ------ Content ------" +:+ nl)].
Proof. split; reflexivity. Qed.

(** C3, amended. For every response hop, [log_response] appends exactly one
    entry whose text starts with "Status: ", the text being
    "Status: <code>"; it goes to the normal-output channel when the code
    equals [requests.codes.ok], that is 200, and to the error-output channel
    for every other code (other 2xx codes included).  So 200 goes to the
    normal channel and 404 to the error channel. *)
Theorem log_response_status_channel
    (log : LogHandle) (r : Response) (w : World) (lg : Log) :
  logs w !! log = Some lg →
  let w' := (log_response log r w).2 in
  let code := resp_status_code r in
  ∃ lg' before after,
    logs w' !! log = Some lg' ∧
    log_lines lg'
    = log_lines lg ++ before
      ++ (if bool_decide (code = 200%Z) then stdout else stderr,
          "Status: " +:+ format_d code +:+ nl) :: after ∧
    (∀ ln, ln ∈ before ++ after → String.prefix "Status: " ln.2 = false) ∧
    (code = 200%Z → (stdout, "Status: 200" +:+ nl) ∈ log_lines lg') ∧
    (code = 404%Z → (stderr, "Status: 404" +:+ nl) ∈ log_lines lg').
Proof.
  intros Hlg w' code. subst w' code. unfold LogHandle in *.
  rewrite log_response_spec. cbn [snd logs set_logs].
  exists (append_lines (response_lines r) lg),
    ([(header, "Request Header:" +:+ nl)]
     ++ map (λ kv, (header, kv_line kv)) (resp_request_headers r)
     ++ [(stdout, "URL: " +:+ resp_url r +:+ nl)]),
    ((header, "Response Header:" +:+ nl)
     :: map (λ kv, (header, kv_line kv)) (resp_headers r)
     ++ [(stdout, " ------ Content ------" +:+ nl +:+ resp_text r)]).
  assert (Hlines :
    log_lines (append_lines (response_lines r) lg)
    = log_lines lg
      ++ ([(header, "Request Header:" +:+ nl)]
          ++ map (λ kv, (header, kv_line kv)) (resp_request_headers r)
          ++ [(stdout, "URL: " +:+ resp_url r +:+ nl)])
      ++ (if bool_decide (resp_status_code r = 200%Z) then stdout else stderr,
          "Status: " +:+ format_d (resp_status_code r) +:+ nl)
         :: (header, "Response Header:" +:+ nl)
         :: map (λ kv, (header, kv_line kv)) (resp_headers r)
         ++ [(stdout, " ------ Content ------" +:+ nl +:+ resp_text r)]).
  { unfold append_lines, response_lines, status_entry, requests_codes_ok.
    cbn [log_lines]. by rewrite <-!app_assoc. }
  split.
  { rewrite lookup_app_l
      by (rewrite length_alter; by apply lookup_lt_Some in Hlg).
    rewrite list_lookup_alter_eq. by erewrite Hlg. }
  split; [exact Hlines|]. split.
  - intros ln. repeat rewrite ?elem_of_app, ?elem_of_cons, ?elem_of_nil.
    intros [[[->|[]]|[H|[->|[]]]]|[->|[H|[->|[]]]]]; try reflexivity;
      apply list_elem_of_fmap in H as (kv & -> & _); reflexivity.
  - rewrite Hlines. split; intros Hc; rewrite Hc; cbn [bool_decide];
      rewrite !elem_of_app; right; right; by left.
Qed.

(** A 200 and a 404 logged into the open transcript: normal output for the
    first, error output for the second. *)
Lemma log_response_status_channel_witness :
  (∃ lg', logs (log_response 0 ex_ok w_log).2 !! 0 = Some lg' ∧
          (stdout, "Status: 200" +:+ nl) ∈ log_lines lg') ∧
  (∃ lg', logs (log_response 0 ex_not_found w_log).2 !! 0 = Some lg' ∧
          (stderr, "Status: 404" +:+ nl) ∈ log_lines lg').
Proof.
  split.
  - destruct (log_response_status_channel 0 ex_ok w_log
                (mkLog "log" [] false) eq_refl)
      as (lg' & before & after & Hl & _ & _ & H200 & _).
    exists lg'. split; [exact Hl|]. apply H200. reflexivity.
  - destruct (log_response_status_channel 0 ex_not_found w_log
                (mkLog "log" [] false) eq_refl)
      as (lg' & before & after & Hl & _ & _ & _ & H404).
    exists lg'. split; [exact Hl|]. apply H404. reflexivity.
Defined.

(** ** The redirect chain *)

Lemma separated_hops (h : list Response) (r : Response) :
  separated (map response_lines (h ++ [r]))
  = concat (map (λ rr, response_lines rr ++ [rule_entry]) h) ++ response_lines r.
Proof.
  induction h as [|x h IH]; [reflexivity|].
  cbn [app map concat]. rewrite <-!app_assoc, <-IH.
  destruct (map response_lines (h ++ [r])) eqn:Hm.
  - apply (f_equal length) in Hm.
    rewrite length_map, length_app in Hm. simpl in Hm. lia.
  - reflexivity.
Qed.

Lemma response_lines_no_rule r ln :
  ln ∈ response_lines r → String.prefix "=" ln.2 = false.
Proof. intros H%response_lines_heads. by apply (head_in_clash _ _ _ H). Qed.

(** The transcript after a response. *)
Lemma run_transcript_response request self w r :
  request (getSession w).1 (requestkwargs_of self) = inr r →
  logs (run request self w).2 !! length (logs w)
  = Some (mkLog "log"
            (request_summary self ++ redirect_lines r ++ response_lines r) true).
Proof.
  intros Hr. rewrite run_spec, Hr. cbn [snd logs].
  by rewrite list_lookup_middle.
Qed.

(** C6. After a final response [r] reached through N >= 1 redirects, the
    transcript is the request summary, then the entry
    "Redirected N times:", then the N+1 per-response sections of the hops
    in the order they occurred (the redirects oldest first, the final
    response last) with a rule of sixty "=" between consecutive sections;
    no section contains the rule.  With no redirect the transcript is the
    request summary and the one section, and no entry of it is the rule or
    starts with "Redirected". *)
Theorem run_redirect_transcript
    (request : Session → RequestKwargs → Exception + Response)
    (self : HTTPStep) (w : World) (r : Response) :
  request (getSession w).1 (requestkwargs_of self) = inr r →
  let w' := (run request self w).2 in
  let hops := resp_history r ++ [r] in
  ∃ lg,
    logs w' !! length (logs w) = Some lg ∧ log_name lg = "log" ∧
    (resp_history r ≠ [] →
     log_lines lg
     = request_summary self
       ++ (stdout, nl +:+ "Redirected "
                   +:+ format_d (Z.of_nat (length (resp_history r)))
                   +:+ " times:" +:+ nl +:+ nl)
          :: separated (map response_lines hops)) ∧
    (resp_history r = [] →
     log_lines lg = request_summary self ++ response_lines r ∧
     ∀ ln, ln ∈ log_lines lg →
           ln ≠ rule_entry ∧ String.prefix (nl +:+ "Redirected") ln.2 = false) ∧
    length hops = S (length (resp_history r)) ∧
    rule_entry
    = (stdout,
       "============================================================" +:+ nl) ∧
    (∀ rr ln, ln ∈ response_lines rr → ln ≠ rule_entry).
Proof.
  intros Hr w' hops. subst w' hops.
  eexists. split; [by apply run_transcript_response|]. split; [done|].
  cbn [log_lines].
  assert (Hrule : ∀ rr ln, ln ∈ response_lines rr → ln ≠ rule_entry).
  { intros rr ln Hln ->. by apply response_lines_no_rule in Hln. }
  repeat split.
  - intros Hne. rewrite separated_hops. unfold redirect_lines, redirected_entry.
    by destruct (resp_history r).
  - unfold redirect_lines. by rewrite H.
  - unfold redirect_lines in H0. rewrite H in H0. cbn [app] in H0.
    apply elem_of_app in H0 as [Hln|Hln].
    + apply request_summary_summary_heads in Hln as [_ Hln].
      intros ->. by apply (head_in_clash _ "=") in Hln.
    + by apply Hrule in Hln.
  - unfold redirect_lines in H0. rewrite H in H0. cbn [app] in H0.
    apply elem_of_app in H0 as [Hln|Hln].
    + apply request_summary_summary_heads in Hln as [_ Hln].
      by apply (head_in_clash _ _ _ Hln).
    + apply response_lines_heads in Hln. by apply (head_in_clash _ _ _ Hln).
  - rewrite length_app. simpl. lia.
  - exact Hrule.
Qed.

(** One redirect: "Redirected 1 times:", the section of the redirect, the
    rule, the section of the final response. *)
Lemma run_redirect_transcript_witness :
  ∃ lg,
    logs (run (answer ex_redirected) (step_of "GET" ex_url None None) w0).2 !! 0
    = Some lg ∧
    log_lines lg
    = request_summary (step_of "GET" ex_url None None)
      ++ (stdout, nl +:+ "Redirected 1 times:" +:+ nl +:+ nl)
         :: response_lines ex_moved ++ rule_entry :: response_lines ex_redirected.
Proof.
  destruct (run_redirect_transcript (answer ex_redirected)
              (step_of "GET" ex_url None None) w0 ex_redirected eq_refl)
    as (lg & Hl & _ & Hred & _).
  exists lg. split; [exact Hl|]. apply Hred. discriminate.
Defined.

(** ** The logs a run opens *)

Lemma content_logs_names (hops : list Response) (r : Response) :
  map log_name (map content_log_of (hops ++ [r]))
  = replicate (S (length hops)) "content".
Proof.
  induction hops as [|x hops IH]; [done|].
  cbn [app map length log_name content_log_of]. by rewrite IH.
Qed.

(** C8, as stated, fails: with one redirect, three logs are opened, the
    transcript and one content log per hop; on a connection failure, one. *)
Lemma run_opened_logs_counterexample :
  opened_logs w0
    (run (answer ex_redirected) (step_of "GET" ex_url None None) w0).2
  = ["log"; "content"; "content"] ∧
  opened_logs w0
    (run (refuse "Connection refused") (step_of "GET" ex_url None None) w0).2
  = ["log"].
Proof. split; reflexivity. Qed.

(** C8, amended. Every run opens the transcript log, named "log", first and
    once, and leaves the logs that were there as they were.  When the
    request completes, [log_response] opens one log named "content" for
    each hop it logs, N+1 of them after N redirects, in the order of the
    hops, and the body text of the hop is the one entry of that log, on its
    normal-output channel.  When the request raises, no content log is
    opened. *)
Theorem run_opened_logs
    (request : Session → RequestKwargs → Exception + Response)
    (self : HTTPStep) (w : World) :
  let w' := (run request self w).2 in
  take (length (logs w)) (logs w') = logs w ∧
  match request (getSession w).1 (requestkwargs_of self) with
  | inr r =>
      opened_logs w w'
      = "log" :: replicate (S (length (resp_history r))) "content" ∧
      drop (S (length (logs w))) (logs w')
      = map (λ hop, mkLog "content" [(stdout, resp_text hop)] false)
          (resp_history r ++ [r])
  | inl _ => opened_logs w w' = ["log"]
  end.
Proof.
  intros w'. subst w'. unfold opened_logs. rewrite run_spec.
  destruct (request _ _) as [[e|e]|r]; cbn [snd logs];
    rewrite take_app_length, drop_app_length; try done.
  split; [done|]. split.
  - cbn [map log_name]. f_equal. apply content_logs_names.
  - rewrite (cons_middle _ (logs w)), app_assoc.
    apply drop_app_length'. rewrite length_app. simpl. lia.
Qed.

(** ** More on the shared session *)

Lemma closeSession_None w : _session w = None → closeSession w = (tt, w).
Proof. unfold closeSession. by intros ->. Qed.

(** X1. [closeSession] closes the stored session, once: with no session
    stored it changes nothing, and a second call right after a first one
    changes nothing either. *)
Theorem closeSession_idempotent (w : World) :
  (_session w = None → closeSession w = (tt, w)) ∧
  closeSession (closeSession w).2 = (tt, (closeSession w).2) ∧
  (∀ s, _session w = Some s →
        closed (closeSession (closeSession w).2).2 = closed w ++ [s]).
Proof.
  split; [|split].
  - apply closeSession_None.
  - destruct (_session w) as [s|] eqn:Hs.
    + rewrite (closeSession_Some _ _ Hs). cbn [snd]. by apply closeSession_None.
    + rewrite (closeSession_None _ Hs). cbn [snd]. by apply closeSession_None.
  - intros s Hs. rewrite (closeSession_Some _ _ Hs). cbn [snd].
    by rewrite closeSession_None.
Qed.

Lemma closeSession_idempotent_witness :
  closeSession w0 = (tt, w0) ∧
  closed (closeSession (closeSession (getSession w0).2).2).2 = [0].
Proof.
  split.
  - apply (proj1 (closeSession_idempotent w0)). reflexivity.
  - apply (proj2 (proj2 (closeSession_idempotent (getSession w0).2)) 0).
    reflexivity.
Defined.

(** X2. [setSession] substitutes the session without closing the one it
    replaces, without constructing anything and without registering a
    trigger; the next [getSession] returns the substituted session and
    leaves the world as it is.  After [setSession(None)] the next
    [getSession] constructs a new session. *)
Theorem setSession_getSession (w : World) (s : Session) :
  let w1 := (setSession (Some s) w).2 in
  let w2 := (setSession None w).2 in
  getSession w1 = (s, w1) ∧
  closed w1 = closed w ∧ triggers w1 = triggers w ∧
  next_object w1 = next_object w ∧
  (getSession w2).1 = next_object w ∧
  closed (getSession w2).2 = closed w ∧
  triggers (getSession w2).2
  = triggers w ++ [("before", "shutdown", call_closeSession)].
Proof.
  intros w1 w2. subst w1 w2. unfold setSession, store_session.
  cbn [snd]. split; [by apply getSession_Some|].
  rewrite getSession_None by done. done.
Qed.

Lemma session_op_counts op w :
  length (triggers (session_op op w).2) + next_object w
  = length (triggers w) + next_object (session_op op w).2.
Proof.
  destruct op as [|s|]; cbn [session_op].
  - rewrite St_bind_eq, mret_eq. cbn [snd].
    destruct (_session w) as [s|] eqn:Hs.
    + by rewrite (getSession_Some _ _ Hs).
    + rewrite (getSession_None _ Hs). cbn [snd triggers next_object].
      rewrite length_app. simpl. lia.
  - done.
  - destruct (_session w) as [s|] eqn:Hs.
    + by rewrite (closeSession_Some _ _ Hs).
    + by rewrite (closeSession_None _ Hs).
Qed.

Lemma session_op_triggers op w :
  Forall (λ t, t = ("before", "shutdown", call_closeSession)) (triggers w) →
  Forall (λ t, t = ("before", "shutdown", call_closeSession))
    (triggers (session_op op w).2).
Proof.
  intros Hall. destruct op as [|s|]; cbn [session_op].
  - rewrite St_bind_eq, mret_eq. cbn [snd].
    destruct (_session w) as [s|] eqn:Hs.
    + by rewrite (getSession_Some _ _ Hs).
    + rewrite (getSession_None _ Hs). cbn [snd triggers].
      apply Forall_app. split; [done|]. by constructor.
  - done.
  - destruct (_session w) as [s|] eqn:Hs.
    + by rewrite (closeSession_Some _ _ Hs).
    + by rewrite (closeSession_None _ Hs).
Qed.

(** X3. Over any sequence of [getSession], [setSession] and [closeSession]
    calls, one before-shutdown trigger is registered for each session
    constructed, and nothing else is ever registered: triggers are added
    with the sessions and never removed, so they pile up when sessions are
    closed and constructed again. *)
Theorem session_ops_triggers (ops : list SessionOp) (w : World) :
  let w' := (session_ops ops w).2 in
  length (triggers w') + next_object w = length (triggers w) + next_object w' ∧
  (Forall (λ t, t = ("before", "shutdown", call_closeSession)) (triggers w) →
   Forall (λ t, t = ("before", "shutdown", call_closeSession)) (triggers w')).
Proof.
  unfold session_ops. cbv zeta.
  revert w. induction ops as [|op ops IH]; intros w; [done|].
  cbn [for_each]. rewrite St_bind_eq.
  destruct (session_op op w) as [[] w1] eqn:Hop. cbn [fst snd].
  destruct (IH w1) as [Hc Hf].
  pose proof (session_op_counts op w) as Hc1.
  pose proof (session_op_triggers op w) as Hf1.
  rewrite Hop in Hc1, Hf1. cbn [snd] in Hc1, Hf1.
  split; [lia|]. intros H. by apply Hf, Hf1.
Qed.

(** Two construct-and-close rounds in a fresh process: two sessions, two
    triggers. *)
Lemma session_ops_triggers_witness :
  length (triggers (session_ops [OpGet; OpClose; OpGet; OpGet; OpClose] w0).2) = 2 ∧
  next_object (session_ops [OpGet; OpClose; OpGet; OpGet; OpClose] w0).2 = 2 ∧
  Forall (λ t, t = ("before", "shutdown", call_closeSession))
    (triggers (session_ops [OpGet; OpClose; OpGet; OpGet; OpClose] w0).2).
Proof.
  pose proof (session_ops_triggers [OpGet; OpClose; OpGet; OpGet; OpClose] w0)
    as [_ Hf].
  split; [reflexivity|]. split; [reflexivity|]. apply Hf. constructor.
Defined.

Lemma session_op_inv op w :
  is_OpSet op = false → session_inv w → session_inv (session_op op w).2.
Proof.
  intros Hop Hinv. destruct op as [|s|]; [| done |]; cbn [session_op].
  - rewrite St_bind_eq, mret_eq. cbn [snd].
    destruct (_session w) as [s|] eqn:Hs.
    + by rewrite (getSession_Some _ _ Hs).
    + rewrite (getSession_None _ Hs). cbn [snd].
      destruct Hinv as (Hwf & Hcl & Hst). repeat split.
      * intros s [= <-]. cbn [next_object]. lia.
      * intros s Hin. cbn [closed next_object] in *. specialize (Hcl s Hin). lia.
      * intros s [= <-] Hin. cbn [closed] in Hin. specialize (Hcl _ Hin). lia.
  - destruct (_session w) as [s|] eqn:Hs.
    + rewrite (closeSession_Some _ _ Hs). cbn [snd].
      destruct Hinv as (Hwf & Hcl & Hst). repeat split.
      * intros s' [=].
      * intros s' Hin. cbn [closed next_object] in *.
        apply elem_of_app in Hin as [Hin|Hin%list_elem_of_singleton].
        -- by apply Hcl.
        -- subst s'. by apply Hwf.
      * intros s' [=].
    + by rewrite (closeSession_None _ Hs).
Qed.

(** X4. As long as [setSession] is not used, [getSession] never hands out a
    session that has been closed: over any sequence of [getSession] and
    [closeSession] calls the stored session stays an open one, and the one
    a further [getSession] returns is not among the closed ones. *)
Theorem getSession_never_closed (ops : list SessionOp) (w : World) :
  session_inv w → forallb (λ op, negb (is_OpSet op)) ops = true →
  let w' := (session_ops ops w).2 in
  session_inv w' ∧ (getSession w').1 ∉ closed (getSession w').2.
Proof.
  unfold session_ops. cbv zeta.
  revert w. induction ops as [|op ops IH]; intros w Hinv Hops.
  - cbn [for_each]. rewrite mret_eq. cbn [snd]. split; [done|].
    pose proof (session_op_inv OpGet w eq_refl Hinv) as (_ & _ & Hst).
    cbn [session_op] in Hst. rewrite St_bind_eq, mret_eq in Hst. cbn [snd] in Hst.
    apply Hst, getSession_stored.
  - cbn [forallb] in Hops. apply andb_true_iff in Hops as [Hop Hops].
    apply negb_true_iff in Hop.
    cbn [for_each]. rewrite St_bind_eq.
    pose proof (session_op_inv op w Hop Hinv) as Hinv1.
    destruct (session_op op w) as [[] w1]. cbn [fst snd] in *.
    by apply IH.
Qed.

Lemma getSession_never_closed_witness :
  (getSession (session_ops [OpGet; OpClose; OpGet; OpClose] w0).2).1
  ∉ closed (getSession (session_ops [OpGet; OpClose; OpGet; OpClose] w0).2).2.
Proof.
  apply (getSession_never_closed [OpGet; OpClose; OpGet; OpClose] w0).
  - repeat split.
    + intros s [=].
    + intros s Hin. by apply elem_of_nil in Hin.
    + intros s [=].
  - reflexivity.
Defined.

(** ** More on [run] *)

Lemma getSession_closed w : closed (getSession w).2 = closed w.
Proof. unfold getSession. by destruct (_session w). Qed.

(** The session globals after [run] are the ones [getSession] left. *)
Lemma run_session_globals request self w :
  _session (run request self w).2 = Some (getSession w).1 ∧
  next_object (run request self w).2 = next_object (getSession w).2 ∧
  closed (run request self w).2 = closed w ∧
  triggers (run request self w).2 = triggers (getSession w).2.
Proof.
  rewrite run_spec.
  destruct (request _ _) as [[e|e]|r]; cbn [snd _session next_object closed triggers];
    by rewrite getSession_stored, getSession_closed.
Qed.

(** X5. [run] catches connection errors only: any other exception of the
    transport leaves [run] as it is.  The request was handed to the session,
    the transcript holds the request summary and nothing else (header
    entries only, no error entry), it is not finished, and the
    done-description is untouched. *)
Theorem run_other_exception
    (request : Session → RequestKwargs → Exception + Response)
    (self : HTTPStep) (w : World) (e : string) :
  request (getSession w).1 (requestkwargs_of self) = inl (OtherException e) →
  let out := (run request self w).1.1 in
  let self' := (run request self w).1.2 in
  let w' := (run request self w).2 in
  out = Raised (OtherException e) ∧
  descriptionDone self' = descriptionDone self ∧
  length (sent w') = S (length (sent w)) ∧
  ∃ lg, logs w' = logs w ++ [lg] ∧ log_name lg = "log" ∧
        log_finished lg = false ∧
        ∀ ln, ln ∈ log_lines lg → ln.1 = header.
Proof.
  intros Hr out self' w'. subst out self' w'.
  rewrite run_spec, Hr. cbn [fst snd descriptionDone set_session logs sent].
  split; [done|]. split; [done|].
  split; [rewrite length_app; simpl; lia|].
  eexists. split; [done|]. cbn [log_name log_lines log_finished].
  split; [done|]. split; [done|].
  intros ln Hln. by apply request_summary_summary_heads in Hln as [? _].
Qed.

Lemma run_other_exception_witness :
  (run (λ _ _, inl (OtherException "Read timed out"))
     (step_of "GET" ex_url None None) w0).1.1
  = Raised (OtherException "Read timed out").
Proof.
  exact (proj1 (run_other_exception (λ _ _, inl (OtherException "Read timed out"))
                  (step_of "GET" ex_url None None) w0 "Read timed out" eq_refl)).
Defined.

(** X6. The transcript is finished exactly when the request completed: on
    a connection error, and on any other exception, [run] leaves before
    [log.finish()].  The content logs are never finished. *)
Theorem run_finishes_transcript
    (request : Session → RequestKwargs → Exception + Response)
    (self : HTTPStep) (w : World) :
  let w' := (run request self w).2 in
  (∃ lg, logs w' !! length (logs w) = Some lg ∧ log_name lg = "log" ∧
         log_finished lg
         = match request (getSession w).1 (requestkwargs_of self) with
           | inr _ => true
           | inl _ => false
           end) ∧
  Forall (λ l, log_name l = "content" ∧ log_finished l = false)
    (drop (S (length (logs w))) (logs w')).
Proof.
  intros w'. subst w'. rewrite run_spec.
  destruct (request _ _) as [[e|e]|r]; cbn [snd logs];
    rewrite list_lookup_middle by done;
    (split; [by eexists|]);
    rewrite (cons_middle _ (logs w)), app_assoc,
      (drop_app_length' _ _ (S (length (logs w))))
      by (rewrite length_app; simpl; lia);
    try by constructor.
  apply Forall_forall. intros l (hop & -> & _)%list_elem_of_fmap. done.
Qed.

(** X7. [run] hands exactly one request to the shared session, the one
    [getSession] returns, and remembers that session on the step.  Method,
    URL, [data] and the pass-through options go into the request as they
    are on the step, and an absent [params] stays absent.  The session is
    stored for later steps and never closed by [run]. *)
Theorem run_forwards_request
    (request : Session → RequestKwargs → Exception + Response)
    (self : HTTPStep) (w : World) :
  let self' := (run request self w).1.2 in
  let w' := (run request self w).2 in
  let s := (getSession w).1 in
  (∃ rk, sent w' = sent w ++ [(s, rk)] ∧
         rk_method rk = method self ∧ rk_url rk = url self ∧
         rk_data rk = data self ∧ rk_others rk = others self ∧
         (params self = None → rk_params rk = None)) ∧
  session self' = Some s ∧
  _session w' = Some s ∧
  closed w' = closed w.
Proof.
  intros self' w' s. subst self' w' s. split.
  - eexists. split; [apply run_sent|]. unfold requestkwargs_of.
    cbn [rk_method rk_url rk_data rk_others rk_params].
    repeat split. by intros ->.
  - destruct (run_session_globals request self w) as (Hs & _ & Hc & _).
    split; [|done]. rewrite run_spec.
    by destruct (request _ _) as [[e|e]|r].
Qed.

(** X8. Two runs, of the same step or of different ones, go through one
    session: the second run finds the session the first one stored,
    constructs nothing and registers no trigger. *)
Theorem run_twice_shares_session
    (request : Session → RequestKwargs → Exception + Response)
    (self1 self2 : HTTPStep) (w : World) :
  let w1 := (run request self1 w).2 in
  let w2 := (run request self2 w1).2 in
  (∃ s rk1 rk2, sent w2 = sent w ++ [(s, rk1); (s, rk2)]) ∧
  next_object w2 = next_object w1 ∧
  triggers w2 = triggers w1 ∧
  _session w2 = _session w1.
Proof.
  intros w1 w2. subst w1 w2.
  destruct (run_session_globals request self1 w) as (Hs1 & Hn1 & _ & Ht1).
  pose proof (getSession_Some _ _ Hs1) as Hg.
  destruct (run_session_globals request self2 (run request self1 w).2)
    as (Hs2 & Hn2 & _ & Ht2).
  rewrite Hg in Hs2, Hn2, Ht2. cbn [fst snd] in Hs2, Hn2, Ht2.
  split; [|by rewrite Hs1, Hs2].
  exists (getSession w).1, (requestkwargs_of self1), (requestkwargs_of self2).
  rewrite !run_sent, Hg. cbn [fst]. by rewrite <-app_assoc.
Qed.

(** X13. The outcome and the channel of the "Status:" entry follow
    different tests: a final response with a code below 400 other than 200
    (201, 204, 304, ...) makes the step succeed while its "Status:" entry is
    on the error-output channel. *)
Theorem run_success_with_error_status
    (request : Session → RequestKwargs → Exception + Response)
    (self : HTTPStep) (w : World) (r : Response) :
  request (getSession w).1 (requestkwargs_of self) = inr r →
  (resp_status_code r < 400)%Z → resp_status_code r ≠ 200%Z →
  let out := (run request self w).1.1 in
  let w' := (run request self w).2 in
  out = Returned SUCCESS ∧
  ∃ lg, logs w' !! length (logs w) = Some lg ∧
        (stderr, "Status: " +:+ format_d (resp_status_code r) +:+ nl)
        ∈ log_lines lg.
Proof.
  intros Hr Hlt Hne out w'. subst out w'. split.
  - rewrite run_spec, Hr. cbn [fst]. by rewrite bool_decide_eq_true_2.
  - eexists. split; [by apply run_transcript_response|]. cbn [log_lines].
    rewrite !elem_of_app. right. right.
    unfold response_lines, status_entry, requests_codes_ok.
    rewrite bool_decide_eq_false_2 by done.
    rewrite !elem_of_app. right. right. left. right. by left.
Qed.

Lemma run_success_with_error_status_witness :
  (run (answer ex_created) (step_of "POST" ex_url None None) w0).1.1
  = Returned SUCCESS ∧
  ∃ lg, logs (run (answer ex_created) (step_of "POST" ex_url None None) w0).2 !! 0
        = Some lg ∧
        (stderr, "Status: 201" +:+ nl) ∈ log_lines lg.
Proof.
  exact (run_success_with_error_status (answer ex_created)
           (step_of "POST" ex_url None None) w0 ex_created eq_refl
           eq_refl ltac:(discriminate)).
Defined.

(** With [data] absent or false, no entry of the summary starts with
    "Data:". *)
Lemma request_summary_no_data_heads self ln :
  data_truthy (data self) = false →
  ln ∈ request_summary self →
  head_in ["Performing "; "Parameters:"; tab] ln = true.
Proof.
  intros Hd. unfold request_summary, parameters_section. rewrite Hd.
  rewrite !elem_of_app, list_elem_of_singleton, elem_of_nil.
  intros [->|[H|[]]].
  - apply head_in_intro. repeat constructor.
  - destruct (params_truthy _); [|by apply elem_of_nil in H].
    apply elem_of_cons in H as [->|H].
    + apply head_in_intro. repeat constructor.
    + apply kv_lines_heads in H as [_ H].
      eapply head_in_weaken; [done|]. sub_solve.
Qed.

(** What [run] writes after the request summary. *)
Lemma run_transcript_rest_heads request self w :
  ∃ rest fin,
    logs (run request self w).2 !! length (logs w)
    = Some (mkLog "log" (request_summary self ++ rest) fin) ∧
    ∀ ln, ln ∈ rest →
          head_in ("An exception occurred" :: redirect_heads) ln = true.
Proof.
  rewrite run_spec.
  destruct (request _ _) as [[e|e]|r]; cbn [snd logs];
    rewrite list_lookup_middle by done.
  - eexists _, _. split; [done|]. intros ln ->%list_elem_of_singleton.
    apply (head_in_intro _ stderr "An exception occurred"
             (" while performing the request: " +:+ e)). by left.
  - exists [], false. rewrite app_nil_r. split; [done|].
    by intros ln ?%elem_of_nil.
  - eexists _, _. split; [done|]. intros ln [Hln|Hln]%elem_of_app.
    + apply redirect_lines_heads in Hln.
      eapply head_in_weaken; [done|]. intros x Hx. by right.
    + apply response_lines_heads in Hln.
      eapply head_in_weaken; [done|]. intros x Hx. by do 3 right.
Qed.

(** X12. [data] that is present but false in a condition (the empty
    mapping, the empty string) gets no "Data:" section, and is still handed
    to the session as given. *)
Theorem run_empty_data
    (request : Session → RequestKwargs → Exception + Response)
    (self : HTTPStep) (w : World) (d : Data) :
  data self = Some d → data_truthy (Some d) = false →
  let w' := (run request self w).2 in
  (∃ rk, sent w' = sent w ++ [((getSession w).1, rk)] ∧ rk_data rk = Some d) ∧
  (∃ lg, logs w' !! length (logs w) = Some lg ∧ log_name lg = "log" ∧
         ∀ ln, ln ∈ log_lines lg → String.prefix "Data:" ln.2 = false).
Proof.
  intros Hd Hf w'. subst w'. split.
  - eexists. split; [apply run_sent|]. done.
  - destruct (run_transcript_rest_heads request self w) as (rest & fin & Hlog & Hrest).
    eexists. split; [exact Hlog|]. split; [done|]. cbn [log_lines].
    intros ln [Hln|Hln]%elem_of_app.
    + apply request_summary_no_data_heads in Hln; [|by rewrite Hd].
      by apply (head_in_clash _ _ _ Hln).
    + apply Hrest in Hln. by apply (head_in_clash _ _ _ Hln).
Qed.

Lemma run_empty_data_witness :
  ∃ rk, sent (run (answer ex_ok)
                (step_of "POST" ex_url None (Some (DataStr ""))) w0).2
        = [(0, rk)] ∧
        rk_data rk = Some (DataStr "").
Proof.
  exact (proj1 (run_empty_data (answer ex_ok)
                  (step_of "POST" ex_url None (Some (DataStr ""))) w0
                  (DataStr "") eq_refl eq_refl)).
Defined.

(** ** More on [log_response] *)

(** X9. [log_response] touches two logs and nothing else.  To the log it is
    given it appends, in this order: "Request Header:", the request headers
    in the order the request has them, the URL, the status, "Response
    Header:", the response headers in the order the response has them, and
    the content.  It opens one new log, "content", after all existing ones,
    holding the body as its only entry.  Every other log, and the rest of
    the world, is left as it was. *)
Theorem log_response_layout
    (log : LogHandle) (r : Response) (w : World) (lg : Log) :
  logs w !! log = Some lg →
  let w' := (log_response log r w).2 in
  logs w'
  = <[log := mkLog (log_name lg)
               (log_lines lg
                ++ [(header, "Request Header:" +:+ nl)]
                ++ map (λ kv, (header, kv_line kv)) (resp_request_headers r)
                ++ [(stdout, "URL: " +:+ resp_url r +:+ nl);
                    (if bool_decide (resp_status_code r = 200%Z)
                     then stdout else stderr,
                     "Status: " +:+ format_d (resp_status_code r) +:+ nl);
                    (header, "Response Header:" +:+ nl)]
                ++ map (λ kv, (header, kv_line kv)) (resp_headers r)
                ++ [(stdout, " ------ Content ------" +:+ nl +:+ resp_text r)])
               (log_finished lg)]> (logs w)
    ++ [mkLog "content" [(stdout, resp_text r)] false] ∧
  (∀ i, i ≠ log → i < length (logs w) → logs w' !! i = logs w !! i) ∧
  sent w' = sent w ∧ _session w' = _session w ∧ closed w' = closed w ∧
  triggers w' = triggers w ∧ next_object w' = next_object w.
Proof.
  intros Hlg w'. subst w'. unfold LogHandle in *.
  rewrite log_response_spec. cbn [snd logs set_logs sent _session closed
    triggers next_object].
  split; [|split; [|done]].
  - f_equal. rewrite list_insert_alter. apply list_alter_ext; [|done].
    intros x Hx. rewrite Hlg in Hx. injection Hx as <-. done.
  - intros i Hi Hlt. rewrite lookup_app_l by (by rewrite length_alter).
    by apply list_lookup_alter_ne.
Qed.

Lemma log_response_layout_witness :
  logs (log_response 0 ex_not_found w_log).2
  = [mkLog "log"
       [(header, "Request Header:" +:+ nl);
        (stdout, "URL: http://example.test/ok" +:+ nl);
        (stderr, "Status: 404" +:+ nl);
        (header, "Response Header:" +:+ nl);
        (stdout, " ------ Content ------" +:+ nl +:+ "missing")] false;
     mkLog "content" [(stdout, "missing")] false].
Proof.
  exact (proj1 (log_response_layout 0 ex_not_found w_log
                  (mkLog "log" [] false) eq_refl)).
Defined.

(** ** More on the constructor *)

(** X10. Whatever the constructor returns as a step has one of the six
    known methods (the guarantee [run] relies on), the URL, [params] and
    [data] it was given, no session yet, and keeps the keywords apart: the
    request options of the step are exactly the keywords named in
    [requestsParams], and the base class, which accepted them, was given
    none of those. *)
Theorem init_step_well_formed
    (BuildStep__init__ : gmap string Opaque → option ConfigErrors)
    (tx : option TxRequests) (u m : string) (kwargs : Kwargs) (step : HTTPStep) :
  __init__ BuildStep__init__ tx u m kwargs = inr step →
  tx = Some txrequests_module ∧
  method step = m ∧ m ∈ known_methods ∧ url step = u ∧
  params step = kw_params kwargs ∧ data step = kw_data kwargs ∧
  session step = None ∧
  (∀ k v, others step !! k = Some v
          ↔ kw_others kwargs !! k = Some v ∧ k ∈ passthroughParams) ∧
  (∀ k, k ∈ requestsParams → buildstep_kwargs step !! k = None) ∧
  BuildStep__init__ (buildstep_kwargs step) = None.
Proof.
  unfold __init__. destruct tx as [[]|]; [|done].
  case_bool_decide as Hm; [done|]. cbn zeta.
  destruct (BuildStep__init__ (remaining_kwargs kwargs)) eqn:Hb; [done|].
  intros [= <-]. cbn [method url params data session others buildstep_kwargs].
  split; [done|]. split; [done|].
  split; [by destruct (decide (m ∈ known_methods))|].
  do 4 (split; [done|]). split; [|split; [|done]].
  - intros k v. unfold popped_kwargs. by rewrite map_lookup_filter_Some.
  - intros k Hk. unfold remaining_kwargs. apply map_lookup_filter_None.
    right. intros x _ Hn. by apply Hn.
Qed.

Lemma init_step_well_formed_witness :
  ∃ step,
    PUT accept_kwargs (Some txrequests_module) ex_url
      (mkKwargs None (Some (DataStr "x"))
         {[ "timeout" := "5"; "name" := "upload" ]})
    = inr step ∧
    method step = "PUT" ∧ data step = Some (DataStr "x") ∧
    others step !! "timeout" = Some "5" ∧
    buildstep_kwargs step !! "timeout" = None.
Proof.
  destruct (PUT accept_kwargs (Some txrequests_module) ex_url
              (mkKwargs None (Some (DataStr "x"))
                 {[ "timeout" := "5"; "name" := "upload" ]}))
    as [e|step] eqn:Hstep.
  { vm_compute in Hstep. discriminate Hstep. }
  exists step. split; [reflexivity|].
  destruct (init_step_well_formed accept_kwargs (Some txrequests_module) ex_url
              "PUT" _ step Hstep)
    as (_ & Hm & _ & _ & _ & Hd & _ & Ho & Hb & _).
  split; [exact Hm|]. split; [exact Hd|]. split.
  - apply Ho. split; [reflexivity|]. do 5 right. left.
  - apply Hb. do 7 right. left.
Defined.

(** X11. The six verb subclasses pass their own verb, so they never meet
    the unknown-method error: with the library installed and keywords the
    base class accepts, each constructs a step with its verb. *)
Theorem subclasses_construct
    (BuildStep__init__ : gmap string Opaque → option ConfigErrors)
    (u : string) (kwargs : Kwargs) :
  BuildStep__init__ (remaining_kwargs kwargs) = None →
  let tx := Some txrequests_module in
  (∃ step, POST BuildStep__init__ tx u kwargs = inr step ∧ method step = "POST") ∧
  (∃ step, GET BuildStep__init__ tx u kwargs = inr step ∧ method step = "GET") ∧
  (∃ step, PUT BuildStep__init__ tx u kwargs = inr step ∧ method step = "PUT") ∧
  (∃ step, DELETE BuildStep__init__ tx u kwargs = inr step ∧ method step = "DELETE") ∧
  (∃ step, HEAD BuildStep__init__ tx u kwargs = inr step ∧ method step = "HEAD") ∧
  (∃ step, OPTIONS BuildStep__init__ tx u kwargs = inr step
           ∧ method step = "OPTIONS").
Proof.
  intros Hb tx. subst tx.
  unfold POST, GET, PUT, DELETE, HEAD, OPTIONS, __init__.
  rewrite !bool_decide_eq_false_2
    by (intros Hn; apply Hn; unfold known_methods;
        rewrite !elem_of_cons; tauto).
  cbn zeta. rewrite Hb. repeat split; by eexists.
Qed.

Lemma subclasses_construct_witness :
  ∃ step, DELETE accept_kwargs (Some txrequests_module) ex_url no_kwargs = inr step ∧
          method step = "DELETE".
Proof.
  destruct (subclasses_construct accept_kwargs ex_url no_kwargs eq_refl)
    as (_ & _ & _ & Hdel & _).
  exact Hdel.
Defined.
